(** * Storytelling chatbot: the streaming tag-extraction stage and its
      bounded-wait image stage

    Shallow embedding of [examples/storytelling-chatbot/src/processors.py]:
    the frame classes, [StoryProcessor] (buffer, story, the extraction loop
    of [process_text_content]) and [StoryImageProcessor].

    Python strings are sequences of Unicode code points; a character is
    modelled as its code point, a string as a list of characters.  The three
    [re] calls and the two [str] methods the code uses are modelled with the
    behaviour of CPython's [re] and [str] on such strings. *)

From Stdlib Require Import String Ascii.
From Stdlib Require Import List NArith Arith Bool Lia.
Import ListNotations.

(** ** Python strings *)

Definition char := N.
Definition str := list char.

(** The code point of an ASCII character, for readable literals. *)
Definition chr (a : ascii) : char := N_of_ascii a.

(** A string literal. *)
Definition py (s : string) : str := map N_of_ascii (list_ascii_of_string s).

Definition c_nl : char := 10%N.          (* "\n" *)
Definition c_space : char := 32%N.       (* " "  *)
Definition c_lt : char := 60%N.          (* "<"  *)
Definition c_gt : char := 62%N.          (* ">"  *)
Definition c_kelvin : char := 8490%N.    (* U+212A KELVIN SIGN *)

(** [str.isspace] on one character: the code points CPython's
    [_PyUnicode_IsWhitespace] accepts. *)
Definition isspace (c : char) : bool :=
  ((9 <=? c) && (c <=? 13) || (28 <=? c) && (c <=? 32)
   || (c =? 133) || (c =? 160) || (c =? 5760)
   || (8192 <=? c) && (c <=? 8202)
   || (c =? 8232) || (c =? 8233) || (c =? 8239) || (c =? 8287)
   || (c =? 12288))%N.

(** [s.lstrip()], [s.rstrip()] and [s.strip()] with no argument. *)
Fixpoint lstrip (s : str) : str :=
  match s with
  | [] => []
  | c :: s' => if isspace c then lstrip s' else s
  end.

Definition rstrip (s : str) : str := rev (lstrip (rev s)).

Definition strip (s : str) : str := rstrip (lstrip s).

(** [s.replace("\n", " ")]. *)
Definition replace_nl_space (s : str) : str :=
  map (fun c => if (c =? c_nl)%N then c_space else c) s.

(** Slices [s[:i]], [s[i:]] and [s[i:j]] for indices within the string. *)
Definition slice_to (i : nat) (s : str) : str := firstn i s.
Definition slice_from (i : nat) (s : str) : str := skipn i s.
Definition slice (i j : nat) (s : str) : str := firstn (j - i) (skipn i s).

(** ** The regular expressions of [process_text_content] *)

(** A match object: [m.start()] and [m.end()]. *)
Record Match := { m_start : nat; m_end : nat }.

Definition shift (m : Match) : Match :=
  {| m_start := S (m_start m); m_end := S (m_end m) |}.

(** [m.group(1)] for the pattern [<(.*?)>]: the text between the
    delimiters. *)
Definition group1 (s : str) (m : Match) : str :=
  slice (S (m_start m)) (m_end m - 1) s.

(** [(.*?)>] tried at the head of [s]: the lazy [.*?] takes one more
    character only while the next one is not [>]; [.] refuses a newline
    (no DOTALL flag).  The result is the length of the group. *)
Fixpoint lazy_dot_gt (s : str) : option nat :=
  match s with
  | [] => None
  | c :: s' =>
      if (c =? c_gt)%N then Some 0
      else if (c =? c_nl)%N then None
      else option_map S (lazy_dot_gt s')
  end.

(** [<(.*?)>] tried at the head of [s]: the end offset of the match. *)
Definition image_match_here (s : str) : option nat :=
  match s with
  | [] => None
  | c :: s' =>
      if (c =? c_lt)%N then option_map (fun n => n + 2) (lazy_dot_gt s')
      else None
  end.

(** [re.search(r"<(.*?)>", s)]: the leftmost start at which the pattern
    matches. *)
Fixpoint search_image (s : str) : option Match :=
  match s with
  | [] => None
  | _ :: s' =>
      match image_match_here s with
      | Some e => Some {| m_start := 0; m_end := e |}
      | None => option_map shift (search_image s')
      end
  end.

(** A pattern without repetition: one character class per position. *)
Definition charclass := char -> bool.
Definition pattern := list charclass.

Definition lit (a : ascii) : charclass := fun c => (c =? chr a)%N.
Definition one_of (a b : ascii) : charclass :=
  fun c => ((c =? chr a) || (c =? chr b))%N.

(** The pattern [\[[bB]reak\]] as [re.search] compiles it without flags. *)
Definition break_re : pattern :=
  [lit "["; one_of "b" "B"; lit "r"; lit "e"; lit "a"; lit "k"; lit "]"].

(** The same pattern compiled with [flags=re.IGNORECASE]: a literal matches
    every character whose Unicode lower case is the literal's, which for
    [k] includes the Kelvin sign. *)
Definition break_re_ignorecase : pattern :=
  [lit "["; one_of "b" "B"; one_of "r" "R"; one_of "e" "E"; one_of "a" "A";
   (fun c => one_of "k" "K" c || (c =? c_kelvin)%N); lit "]"].

(** The pattern matched at the head of [s]. *)
Fixpoint match_here (p : pattern) (s : str) : bool :=
  match p, s with
  | [], _ => true
  | _ :: _, [] => false
  | k :: p', c :: s' => k c && match_here p' s'
  end.

(** [re.search(p, s)]. *)
Fixpoint re_search (p : pattern) (s : str) : option Match :=
  match s with
  | [] => if match_here p [] then Some {| m_start := 0; m_end := 0 |} else None
  | _ :: s' =>
      if match_here p s then Some {| m_start := 0; m_end := length p |}
      else option_map shift (re_search p s')
  end.

(** [re.split(p, s, maxsplit=1)] for a pattern without groups: the text
    before and after the leftmost match, or the text alone. *)
Definition re_split1 (p : pattern) (s : str) : list str :=
  match re_search p s with
  | Some m => [slice_to (m_start m) s; slice_from (m_end m) s]
  | None => [s]
  end.

(** [float("inf")] next to the integer offsets, and [<] on them. *)
Inductive Pos := Fin (n : nat) | Inf.

Definition pos_lt (a b : Pos) : bool :=
  match a, b with
  | Fin x, Fin y => x <? y
  | Fin _, Inf => true
  | Inf, _ => false
  end.

Definition pos_of (m : option Match) : Pos :=
  match m with
  | Some m => Fin (m_start m)
  | None => Inf
  end.

(** ** Frames *)

(** Modelled from the spec: the constants [CUE_ASSISTANT_TURN] and
    [CUE_USER_TURN] of [prompts.py], which is not part of the sources at
    hand; the two UI cues "assistant's turn" and "user's turn". *)
Inductive Cue := CUE_ASSISTANT_TURN | CUE_USER_TURN.

(** Modelled from the spec: the keys of the table [sounds] that
    [utils.helpers.load_sounds] builds from [talking.wav], [listening.wav]
    and [ding.wav]; each entry is a ready-made audio frame. *)
Inductive Sound := talking | listening | ding.

(** The frame classes the two processors meet.  [StoryPageFrame],
    [StoryImageFrame] and [StoryPromptFrame] are the three subclasses of
    [TextFrame] declared in the file; [OtherTextFrame] stands for an
    instance of a subclass of [TextFrame] declared elsewhere (a
    transcription frame, for instance), with its class and its text;
    [OtherFrame] stands for a frame that is an instance of none of the
    classes the [isinstance] tests of the file name, [TextFrame] and its
    subclasses included (an image produced by the generation service, for
    instance). *)
Inductive Frame :=
| UserStoppedSpeakingFrame
| LLMFullResponseEndFrame
| TextFrame (text : str)
| StoryPageFrame (text : str)
| StoryImageFrame (text : str)
| StoryPromptFrame (text : str)
| OtherTextFrame (cls : N) (text : str)
| DailyTransportMessageFrame (message : Cue)
| OutputAudioRawFrame (audio : Sound)
| OtherFrame (id : N).

Definition sounds (key : Sound) : Frame := OutputAudioRawFrame key.

Inductive FrameDirection := DOWNSTREAM | UPSTREAM.

(** [isinstance(frame, TextFrame)], giving [frame.text] when it holds: true
    of a [TextFrame] and of an instance of any of its subclasses. *)
Definition isinstance_TextFrame (frame : Frame) : option str :=
  match frame with
  | TextFrame t | StoryPageFrame t | StoryImageFrame t | StoryPromptFrame t
  | OtherTextFrame _ t =>
      Some t
  | _ => None
  end.

(** [isinstance(frame, StoryImageFrame)]; the class, declared in the file,
    has no subclass. *)
Definition isinstance_StoryImageFrame (frame : Frame) : option str :=
  match frame with
  | StoryImageFrame t => Some t
  | _ => None
  end.

(** ** StoryProcessor *)

(** The attributes the processor reads and writes: the text buffer and the
    story, a list the caller passed in and that [append] extends in place.
    [_messages] is stored by [__init__] and never used again.  The frames
    handed to [push_frame] are collected in call order next to the state. *)
Record StoryProcessor := { _text : str; _story : list str }.

Definition set_text (self : StoryProcessor) (t : str) : StoryProcessor :=
  {| _text := t; _story := _story self |}.

(** What one pass through the body of [while True] does: leave the loop
    ([break], line 127), or take one of the two arms and go round again. *)
Inductive Iteration :=
| Stop
| ImageArm (self' : StoryProcessor) (pushed : list Frame)
| BreakArm (self' : StoryProcessor) (pushed : list Frame).

(** Lines 139 to 151: the arm for a story break. *)
Definition break_arm (self : StoryProcessor) : Iteration :=
  let parts := re_split1 break_re_ignorecase (_text self) in
  let before_break := strip (replace_nl_space (nth 0 parts [])) in
  let rest := if 1 <? length parts then strip (nth 1 parts []) else [] in
  if 2 <? length before_break then
    BreakArm {| _text := rest; _story := _story self ++ [before_break] |}
             [StoryPageFrame before_break;
              DailyTransportMessageFrame CUE_ASSISTANT_TURN]
  else
    BreakArm {| _text := rest; _story := _story self |} [].

(** Lines 133 to 138: the arm for an image prompt. *)
Definition image_arm (self : StoryProcessor) (image_match : Match)
  : Iteration :=
  let image_prompt := group1 (_text self) image_match in
  ImageArm (set_text self (slice_to (m_start image_match) (_text self)
                           ++ slice_from (m_end image_match) (_text self)))
           [StoryImageFrame image_prompt].

(** Lines 121 to 151: one iteration. *)
Definition loop_body (self : StoryProcessor) : Iteration :=
  let image_match := search_image (_text self) in
  let break_match := re_search break_re (_text self) in
  match image_match, break_match with
  | None, None => Stop
  | _, _ =>
      let image_pos := pos_of image_match in
      let break_pos := pos_of break_match in
      match image_match with
      | Some m =>
          if pos_lt image_pos break_pos then image_arm self m
          else break_arm self
      | None => break_arm self   (* inf < break_pos is False *)
      end
  end.

(** The loop, unrolled at most [fuel] times; [None] when the fuel runs
    out before the loop is left. *)
Fixpoint while_true (fuel : nat) (self : StoryProcessor)
  : option (StoryProcessor * list Frame) :=
  match fuel with
  | O => None
  | S fuel' =>
      match loop_body self with
      | Stop => Some (self, [])
      | ImageArm self' pushed | BreakArm self' pushed =>
          match while_true fuel' self' with
          | Some (final, pushed') => Some (final, pushed ++ pushed')
          | None => None
          end
      end
  end.

(** The loop as a relation: [runs self final pushed] when the loop entered
    in [self] is left in [final] after pushing [pushed]. *)
Inductive runs : StoryProcessor -> StoryProcessor -> list Frame -> Prop :=
| runs_stop self :
    loop_body self = Stop -> runs self self []
| runs_image self self' pushed final pushed' :
    loop_body self = ImageArm self' pushed ->
    runs self' final pushed' -> runs self final (pushed ++ pushed')
| runs_break self self' pushed final pushed' :
    loop_body self = BreakArm self' pushed ->
    runs self' final pushed' -> runs self final (pushed ++ pushed').

(** [process_text_content]: the loop with as much fuel as the buffer has
    characters, plus one (enough, see [while_true_enough]). *)
Definition process_text_content (self : StoryProcessor)
  : StoryProcessor * list Frame :=
  match while_true (S (length (_text self))) self with
  | Some r => r
  | None => (self, [])
  end.

(** [StoryProcessor.process_frame].  The base class's [process_frame],
    called first, pushes nothing. *)
Definition process_frame (self : StoryProcessor) (frame : Frame)
  (direction : FrameDirection) : StoryProcessor * list Frame :=
  match frame with
  | UserStoppedSpeakingFrame =>
      (self, [DailyTransportMessageFrame CUE_ASSISTANT_TURN; sounds talking])
  | _ =>
      match isinstance_TextFrame frame with
      | Some text =>
          process_text_content (set_text self (_text self ++ text))
      | None =>
          match frame with
          | LLMFullResponseEndFrame =>
              (set_text self [],
               [StoryPromptFrame (_text self); frame;
                DailyTransportMessageFrame CUE_USER_TURN; sounds listening])
          | _ => (self, [frame])
          end
      end
  end.

(** Frames delivered one after the other, the pushed frames in order. *)
Fixpoint process_frames (self : StoryProcessor) (frames : list Frame)
  : StoryProcessor * list Frame :=
  match frames with
  | [] => (self, [])
  | frame :: frames' =>
      let (self1, pushed) := process_frame self frame DOWNSTREAM in
      let (self2, pushed') := process_frames self1 frames' in
      (self2, pushed ++ pushed')
  end.

(** ** StoryImageProcessor *)

(** What [run_image_gen] yields for a prompt: the frames in order, each with
    the time the service takes to produce it once asked for it, and the time
    it takes to end the stream after the last one. *)
Record Generation := { produced : list (N * Frame); finish : N }.

Record StoryImageProcessor :=
  { _fal_service : str -> Generation (* run_image_gen *) }.

(** How the body of [async with timeout(...)] ends. *)
Inductive Outcome := Completed | TimeoutError.

(** [async for i in ...: await self.push_frame(i)] under a deadline: the
    clock [now] advances while the stage waits for the next item; the wait
    is cancelled when the deadline comes first.  Pushing takes no time. *)
Fixpoint async_for_push (deadline now : N) (gen : list (N * Frame))
  (finish : N) : list Frame * Outcome :=
  match gen with
  | [] =>
      if (now + finish <? deadline)%N then ([], Completed)
      else ([], TimeoutError)
  | (wait, i) :: gen' =>
      if (now + wait <? deadline)%N then
        let (pushed, how) := async_for_push deadline (now + wait) gen' finish in
        (i :: pushed, how)
      else ([], TimeoutError)
  end.

Section ImageStage.

(** The template [IMAGE_GEN_PROMPT] of [prompts.py] applied to a text with
    [%]; the template is not part of the sources at hand. *)
Variable IMAGE_GEN_PROMPT : str -> str.

(** [StoryImageProcessor.process_frame]: the frames pushed. *)
Definition image_process_frame (self : StoryImageProcessor) (frame : Frame)
  (direction : FrameDirection) : list Frame :=
  match isinstance_StoryImageFrame frame with
  | Some text =>
      let gen := _fal_service self (IMAGE_GEN_PROMPT text) in
      match async_for_push 7 0 (produced gen) (finish gen) with
      | (pushed, Completed) => pushed
      | (pushed, TimeoutError) => pushed     (* except TimeoutError: pass *)
      end
  | None => [frame]
  end.

(** Frames delivered to the image stage one after the other. *)
Fixpoint image_process_frames (self : StoryImageProcessor)
  (frames : list Frame) : list Frame :=
  match frames with
  | [] => []
  | frame :: frames' =>
      image_process_frame self frame DOWNSTREAM
      ++ image_process_frames self frames'
  end.

End ImageStage.

(** ** Vocabulary of the statements *)

(** [matches p m]: the pattern [p] matches exactly the text [m]. *)
Definition matches (p : pattern) (m : str) : Prop :=
  Forall2 (fun (k : charclass) c => k c = true) p m.

(** [first_match p s before m after]: [m] is the leftmost text in [s] that
    [p] matches, between [before] and [after]. *)
Definition first_match (p : pattern) (s before m after : str) : Prop :=
  s = before ++ m ++ after /\ matches p m /\
  forall before' m' after',
    s = before' ++ m' ++ after' -> matches p m' ->
    length before <= length before'.

(** [tag_at s before p after]: an image tag with inner text [p] stands in
    [s] between [before] and [after]; the inner text has no [>] (the match
    is lazy) and no newline (the dot refuses it). *)
Definition tag_at (s before p after : str) : Prop :=
  s = before ++ c_lt :: p ++ c_gt :: after /\ ~ In c_gt p /\ ~ In c_nl p.

(** The leftmost image tag of [s]. *)
Definition first_tag (s before p after : str) : Prop :=
  tag_at s before p after /\
  forall before' p' after',
    tag_at s before' p' after' -> length before <= length before'.

(** [infix m s]: the text [m] occurs in [s]. *)
Definition infix (m s : str) : Prop := exists a b, s = a ++ m ++ b.

(** The page text line 142 makes of the text before the marker. *)
Definition page_of (before : str) : str := strip (replace_nl_space before).

(** The texts of the page frames among [frames], in order. *)
Definition pages_of (frames : list Frame) : list str :=
  flat_map (fun f => match f with StoryPageFrame t => [t] | _ => [] end) frames.

(** What a story entry looks like: no newline, no whitespace at either
    end, more than two characters. *)
Definition page_ok (page : str) : Prop :=
  ~ In c_nl page /\
  (forall c s, page = c :: s -> isspace c = false) /\
  (forall s c, page = s ++ [c] -> isspace c = false) /\
  2 < length page.

(** The items of a stream with the time at which each one arrives, the
    clock standing at [now] when the first is asked for. *)
Fixpoint arrivals (now : N) (gen : list (N * Frame)) : list (N * Frame) :=
  match gen with
  | [] => []
  | (wait, i) :: gen' => ((now + wait)%N, i) :: arrivals (now + wait)%N gen'
  end.

(** The time at which a stream asked for at time 0 has ended. *)
Definition end_time (gen : Generation) : N :=
  (fold_right (fun wi t => fst wi + t) 0 (produced gen) + finish gen)%N.

(** ** Delivery in several deltas *)

Fixpoint str_eqb (a b : str) : bool :=
  match a, b with
  | [], [] => true
  | c :: a', d :: b' => (c =? d)%N && str_eqb a' b'
  | _, _ => false
  end.

(** [padded z w]: the text [z] is [w] with whitespace before and after. *)
Definition padded (z w : str) : Prop :=
  exists l r, z = l ++ w ++ r /\
              forallb isspace l = true /\ forallb isspace r = true.

(** Two states of the processor with the same story and the same buffer up
    to whitespace at its ends, the second the barer one. *)
Definition same_upto_padding (Z W : StoryProcessor) : Prop :=
  padded (_text Z) (_text W) /\ _story Z = _story W.

(** A break step taken on the buffer of [self] while the text [later] has
    not arrived yet is safe for the boundary when, first, the buffer
    completed by [later] has no image tag starting before the marker the
    search found, and second, stripping the text after the marker at once
    loses no whitespace that [later] would have kept inside the text:
    stripped again with [later] behind it, it is what stripping the two
    together gives. *)
Definition break_safe (self : StoryProcessor) (later : str) : bool :=
  negb (pos_lt (pos_of (search_image (_text self ++ later)))
               (pos_of (re_search break_re (_text self))))
  && match re_search break_re_ignorecase (_text self) with
     | Some sm =>
         str_eqb (strip (slice_from (m_end sm) (_text self) ++ later))
                 (strip (strip (slice_from (m_end sm) (_text self)) ++ later))
     | None => true
     end.

(** Every break step of the loop entered in [self] is safe for [later]. *)
Fixpoint safe_run (fuel : nat) (self : StoryProcessor) (later : str) : bool :=
  match fuel with
  | O => true
  | S fuel' =>
      match loop_body self with
      | Stop => true
      | ImageArm self' _ => safe_run fuel' self' later
      | BreakArm self' _ => break_safe self later && safe_run fuel' self' later
      end
  end.

(** Every break step taken while [deltas] are delivered one at a time is
    safe for the deltas still to come. *)
Fixpoint safe_split (self : StoryProcessor) (deltas : list str) : bool :=
  match deltas with
  | [] => true
  | delta :: deltas' =>
      let fed := set_text self (_text self ++ delta) in
      safe_run (S (length (_text fed))) fed (concat deltas')
      && safe_split (fst (process_text_content fed)) deltas'
  end.

(** ** More vocabulary for the story stage *)

(** [StoryProcessor.__init__]: the buffer starts empty, the story is the
    list the caller hands over. *)
Definition init (story : list str) : StoryProcessor :=
  {| _text := []; _story := story |}.

(** The frames the extraction loop can push: image frames, and page frames
    each followed at once by the "assistant's turn" cue. *)
Fixpoint loop_output (frames : list Frame) : bool :=
  match frames with
  | [] => true
  | StoryImageFrame _ :: rest => loop_output rest
  | StoryPageFrame _ :: DailyTransportMessageFrame CUE_ASSISTANT_TURN :: rest =>
      loop_output rest
  | _ => false
  end.

(** The number of characters a frame carries as text. *)
Definition text_length (frame : Frame) : nat :=
  match isinstance_TextFrame frame with
  | Some t => length t
  | None => 0
  end.

Definition total_text (frames : list Frame) : nat :=
  fold_right (fun frame n => text_length frame + n) 0 frames.

(** A frame that passes none of the [isinstance] tests of
    [StoryProcessor.process_frame]: it is no instance of
    [UserStoppedSpeakingFrame], of [TextFrame] or a subclass of it, or of
    [LLMFullResponseEndFrame]. *)
Definition unnamed (frame : Frame) : bool :=
  match frame with
  | OtherFrame _ | DailyTransportMessageFrame _ | OutputAudioRawFrame _ => true
  | _ => false
  end.

Definition not_image_trigger (frame : Frame) : bool :=
  match isinstance_StoryImageFrame frame with
  | Some _ => false
  | None => true
  end.

(** ** The sound effects sample ([11-sound-effects.py]) *)

Definition bytes := list N.

(** The frame classes the sample imports from [dailyai.queue_frame]; the
    three it names are taken to be unrelated by inheritance, and
    [OtherQueueFrame] stands for a frame of any other class. *)
Inductive QueueFrame :=
| AudioQueueFrame (data : bytes)
| LLMResponseEndQueueFrame
| LLMMessagesQueueFrame (messages : N)
| OtherQueueFrame (id : N).

(** A Python dict from file names to audio data, in insertion order. *)
Definition dict := list (string * bytes).

Fixpoint dict_get (key : string) (d : dict) : option bytes :=
  match d with
  | [] => None                               (* KeyError *)
  | (k, v) :: d' => if String.eqb k key then Some v else dict_get key d'
  end.

(** [d[key] = value]. *)
Fixpoint dict_set (key : string) (value : bytes) (d : dict) : dict :=
  match d with
  | [] => [(key, value)]
  | (k, v) :: d' =>
      if String.eqb k key then (k, value) :: d'
      else (k, v) :: dict_set key value d'
  end.

Section SoundEffects.

(** [os.path.join(script_dir, "assets", file)], and what
    [wave.open(full_path).readframes(-1)] returns, or [None] when the file
    cannot be opened and the call raises. *)
Variable full_path : string -> string.
Variable readframes : string -> option bytes.

(** Lines 29 to 36: the loop that fills [sounds], keyed by [file]; the
    name without extension that line 33 computes is not used.  An
    exception ends the loop. *)
Fixpoint load_sounds (sound_files : list string) (sounds : dict)
  : option dict :=
  match sound_files with
  | [] => Some sounds
  | file :: sound_files' =>
      match readframes (full_path file) with
      | Some data => load_sounds sound_files' (dict_set file data sounds)
      | None => None
      end
  end.

End SoundEffects.

Definition sound_files : list string := ["ding1.wav"; "ding2.wav"]%string.

(** [OutboundSoundEffectWrapper.process_frame]: the frames yielded, or
    [None] when the lookup in [sounds] raises [KeyError]. *)
Definition Outbound_process_frame (sounds : dict) (frame : QueueFrame)
  : option (list QueueFrame) :=
  match frame with
  | LLMResponseEndQueueFrame =>
      match dict_get "ding1.wav" sounds with
      | Some data => Some [AudioQueueFrame data; frame]
      | None => None
      end
  | _ => Some [frame]
  end.

(** [InboundSoundEffectWrapper.process_frame]. *)
Definition Inbound_process_frame (sounds : dict) (frame : QueueFrame)
  : option (list QueueFrame) :=
  match frame with
  | LLMMessagesQueueFrame _ =>
      match dict_get "ding2.wav" sounds with
      | Some data => Some [AudioQueueFrame data; frame]
      | None => None
      end
  | _ => Some [frame]
  end.

(** A wrapper fed the frames of a stream one after the other; the first
    exception ends it. *)
Fixpoint feed (process_frame : QueueFrame -> option (list QueueFrame))
  (frames : list QueueFrame) : option (list QueueFrame) :=
  match frames with
  | [] => Some []
  | frame :: frames' =>
      match process_frame frame with
      | Some yielded =>
          match feed process_frame frames' with
          | Some rest => Some (yielded ++ rest)
          | None => None
          end
      | None => None
      end
  end.

Definition is_audio (frame : QueueFrame) : bool :=
  match frame with AudioQueueFrame _ => true | _ => false end.

Definition is_response_end (frame : QueueFrame) : bool :=
  match frame with LLMResponseEndQueueFrame => true | _ => false end.

Definition is_messages (frame : QueueFrame) : bool :=
  match frame with LLMMessagesQueueFrame _ => true | _ => false end.

(** ** Stripping and replacing, said without the functions *)

(** [bare t]: the text [t] has no whitespace at its start or at its end. *)
Definition bare (t : str) : Prop :=
  (forall c t', t = c :: t' -> isspace c = false) /\
  (forall t' c, t = t' ++ [c] -> isspace c = false).

(** [trimmed_of s t]: [t] is [s] without the whitespace at its two ends,
    and nothing else of [s] is gone. *)
Definition trimmed_of (s t : str) : Prop := padded s t /\ bare t.

(** [newlines_spaced s t]: [t] is [s] with a space in the place of each
    newline, every other character as in [s]. *)
Definition newlines_spaced (s t : str) : Prop :=
  Forall2 (fun c d => d = if (c =? c_nl)%N then c_space else c) s t.

(** [normalized_of before page]: [page] is [before] without the whitespace
    at its two ends and with a space for each newline that is left. *)
Definition normalized_of (before page : str) : Prop :=
  exists core, trimmed_of before core /\ newlines_spaced core page.

(** What it is for [process_frame] to take a frame with the text [text]
    as a text delta: the result is that of the extraction loop entered
    with the text behind what the buffer held; what is pushed is what the
    loop pushes, image frames and page frames with their cue; and when the
    buffer so extended holds no pattern, it is the new buffer, and nothing
    is pushed. *)
Definition consumed_as_text (self : StoryProcessor) (text : str)
  (result : StoryProcessor * list Frame) : Prop :=
  runs {| _text := _text self ++ text; _story := _story self |}
       (fst result) (snd result) /\
  loop_output (snd result) = true /\
  (search_image (_text self ++ text) = None ->
   re_search break_re (_text self ++ text) = None ->
   result = ({| _text := _text self ++ text; _story := _story self |}, [])).

(** * Properties *)

(** ** Lists and strings *)

Lemma app_eq_length {A} (a b c d : list A) :
  a ++ b = c ++ d -> length a = length c -> a = c /\ b = d.
Proof.
  revert c. induction a as [|x a IH]; intros [|y c] H Hl; try discriminate.
  - auto.
  - simpl in *. injection H as -> H. injection Hl as Hl.
    destruct (IH c H Hl) as [-> ->]. auto.
Qed.

Lemma firstn_length_app {A} (a b : list A) : firstn (length a) (a ++ b) = a.
Proof. rewrite firstn_app, Nat.sub_diag, firstn_all. simpl. apply app_nil_r. Qed.

Lemma skipn_length_app {A} (a b : list A) : skipn (length a) (a ++ b) = b.
Proof. rewrite skipn_app, Nat.sub_diag, skipn_all. reflexivity. Qed.

Lemma lstrip_split (s : str) :
  exists ws, s = ws ++ lstrip s /\ forallb isspace ws = true.
Proof.
  induction s as [|c s IH]; simpl.
  - exists []. auto.
  - destruct (isspace c) eqn:E.
    + destruct IH as [ws [H1 H2]]. exists (c :: ws). simpl.
      rewrite E, H2. split; [congruence | reflexivity].
    + exists []. auto.
Qed.

Lemma rstrip_split (s : str) :
  exists ws, s = rstrip s ++ ws /\ forallb isspace ws = true.
Proof.
  unfold rstrip. destruct (lstrip_split (rev s)) as [ws [H1 H2]].
  exists (rev ws). split.
  - rewrite <- rev_app_distr, <- H1, rev_involutive. reflexivity.
  - rewrite forallb_forall in *. intros x Hx. apply H2.
    now apply in_rev in Hx.
Qed.

Lemma strip_split (s : str) :
  exists l r, s = l ++ strip s ++ r /\
              forallb isspace l = true /\ forallb isspace r = true.
Proof.
  destruct (lstrip_split s) as [l [H1 H2]].
  destruct (rstrip_split (lstrip s)) as [r [H3 H4]].
  exists l, r. unfold strip. rewrite <- H3. auto.
Qed.

Lemma length_strip (s : str) : length (strip s) <= length s.
Proof.
  destruct (strip_split s) as [l [r [H _]]].
  rewrite H at 2. rewrite !length_app. lia.
Qed.

Lemma lstrip_head (s : str) c s' : lstrip s = c :: s' -> isspace c = false.
Proof.
  induction s as [|d s IH]; simpl; [discriminate|].
  destruct (isspace d) eqn:E; [exact IH|].
  intros H. injection H as <- _. exact E.
Qed.


(** A stripped text starts with no whitespace. *)
Lemma strip_head (s : str) c s' : strip s = c :: s' -> isspace c = false.
Proof.
  unfold strip. intros H.
  destruct (rstrip_split (lstrip s)) as [ws [H1 _]].
  rewrite H in H1. simpl in H1. exact (lstrip_head _ _ _ H1).
Qed.

(** A stripped text ends with no whitespace. *)
Lemma strip_last (s : str) s' c : strip s = s' ++ [c] -> isspace c = false.
Proof.
  unfold strip, rstrip. intros H.
  apply (f_equal (@rev char)) in H.
  rewrite rev_involutive, rev_app_distr in H. simpl in H.
  exact (lstrip_head _ _ _ H).
Qed.

Lemma replace_nl_space_no_nl (s : str) : ~ In c_nl (replace_nl_space s).
Proof.
  unfold replace_nl_space. intros H. apply in_map_iff in H.
  destruct H as [c [H _]]. destruct (N.eqb_spec c c_nl); [discriminate|].
  congruence.
Qed.

Lemma strip_incl (s : str) c : In c (strip s) -> In c s.
Proof.
  destruct (strip_split s) as [l [r [H _]]]. intros Hc.
  rewrite H. apply in_or_app. right. apply in_or_app. now left.
Qed.

(** ** Searching for a pattern without repetition *)

Lemma matches_length p m : matches p m -> length m = length p.
Proof. intros H. symmetry. exact (Forall2_length H). Qed.

Lemma match_here_iff p s :
  match_here p s = true <-> exists m after, s = m ++ after /\ matches p m.
Proof.
  revert s. induction p as [|k p IH]; intros s; simpl.
  - split; [|reflexivity]. intros _. exists [], s. split; [reflexivity|constructor].
  - destruct s as [|c s].
    + split; [discriminate|]. intros [m [after [H Hm]]].
      inversion Hm; subst. discriminate.
    + rewrite andb_true_iff, IH. split.
      * intros [Hk [m [after [-> Hm]]]]. exists (c :: m), after.
        split; [reflexivity|]. now constructor.
      * intros [m [after [H Hm]]]. inversion Hm; subst.
        simpl in H. injection H as -> ->. split; [assumption|]. eauto.
Qed.

Lemma first_match_tail p c s before m after :
  first_match p (c :: s) (c :: before) m after -> first_match p s before m after.
Proof.
  intros [H [Hm Hfirst]]. simpl in H. injection H as H.
  split; [assumption|]. split; [assumption|].
  intros b' m' a' Hs Hm'.
  specialize (Hfirst (c :: b') m' a'). simpl in Hfirst.
  apply le_S_n, Hfirst; [now rewrite Hs | assumption].
Qed.

Lemma first_match_cons p c s before m after :
  match_here p (c :: s) = false ->
  first_match p s before m after -> first_match p (c :: s) (c :: before) m after.
Proof.
  intros Hno [H [Hm Hfirst]].
  split; [simpl; now rewrite H|]. split; [assumption|].
  intros b' m' a' Hs Hm'. destruct b' as [|d b'].
  - exfalso. assert (match_here p (c :: s) = true); [|congruence].
    apply match_here_iff. exists m', a'. auto.
  - simpl in *. injection Hs as -> Hs. apply le_n_S. eauto.
Qed.

(** [re.search] finds the leftmost match. *)
Lemma re_search_first p s before m after :
  first_match p s before m after ->
  re_search p s =
    Some {| m_start := length before; m_end := length before + length p |}.
Proof.
  revert s. induction before as [|c before IH]; intros s Hf.
  - destruct Hf as [H [Hm _]]. simpl in H.
    assert (Hh : match_here p s = true) by (apply match_here_iff; eauto).
    destruct s; simpl; rewrite Hh; [|reflexivity].
    destruct p; [reflexivity | discriminate].
  - destruct s as [|d s]; [destruct Hf as [H _]; discriminate|].
    assert (d = c) as -> by (destruct Hf as [H _]; simpl in H; congruence).
    simpl. destruct (match_here p (c :: s)) eqn:Hh.
    + exfalso. apply match_here_iff in Hh. destruct Hh as [m' [a' [Hs Hm']]].
      destruct Hf as [_ [_ Hfirst]].
      specialize (Hfirst [] m' a' Hs Hm'). simpl in Hfirst. lia.
    + rewrite (IH s (first_match_tail _ _ _ _ _ _ Hf)). reflexivity.
Qed.

Lemma re_search_Some p s mm :
  re_search p s = Some mm ->
  exists before m after,
    first_match p s before m after /\
    m_start mm = length before /\ m_end mm = length before + length p.
Proof.
  revert mm. induction s as [|c s IH]; intros mm; simpl.
  - destruct (match_here p []) eqn:Hh; [|discriminate].
    intros H. injection H as <-. destruct p; [|discriminate].
    exists [], [], []. repeat split; try constructor. intros; simpl; lia.
  - destruct (match_here p (c :: s)) eqn:Hh.
    + intros H. injection H as <-.
      apply match_here_iff in Hh. destruct Hh as [m [after [Hs Hm]]].
      exists [], m, after. repeat split; try assumption. intros; simpl; lia.
    + destruct (re_search p s) as [m1|]; [|discriminate].
      intros H. injection H as <-.
      destruct (IH m1 eq_refl) as [before [m [after [Hf [H1 H2]]]]].
      exists (c :: before), m, after. split.
      * now apply first_match_cons.
      * simpl. lia.
Qed.

Lemma re_search_None p s :
  re_search p s = None ->
  forall before m after, s = before ++ m ++ after -> ~ matches p m.
Proof.
  induction s as [|c s IH]; simpl.
  - destruct (match_here p []) eqn:Hh; [discriminate|]. intros _ b m a Hs Hm.
    assert (match_here p [] = true); [|congruence].
    apply match_here_iff. destruct b; [|discriminate]. exists m, a. auto.
  - destruct (match_here p (c :: s)) eqn:Hh; [discriminate|].
    destruct (re_search p s); [discriminate|]. intros _ b m a Hs Hm.
    destruct b as [|d b].
    + assert (match_here p (c :: s) = true); [|congruence].
      apply match_here_iff. exists m, a. auto.
    + simpl in Hs. injection Hs as _ Hs. exact (IH eq_refl b m a Hs Hm).
Qed.

(** The leftmost match is unique. *)
Lemma first_match_unique p s b1 m1 a1 b2 m2 a2 :
  first_match p s b1 m1 a1 -> first_match p s b2 m2 a2 ->
  b1 = b2 /\ m1 = m2 /\ a1 = a2.
Proof.
  intros [H1 [Hm1 F1]] [H2 [Hm2 F2]].
  assert (Hl : length b1 = length b2).
  { apply Nat.le_antisymm; [exact (F1 _ _ _ H2 Hm2) | exact (F2 _ _ _ H1 Hm1)]. }
  rewrite H1 in H2.
  assert (Hb : b1 = b2 /\ m1 ++ a1 = m2 ++ a2).
  { apply app_eq_length; assumption. }
  destruct Hb as [-> Hr]. split; [reflexivity|].
  apply app_eq_length in Hr; [assumption|].
  now rewrite (matches_length _ _ Hm1), (matches_length _ _ Hm2).
Qed.

(** ** Searching for an image tag *)

Lemma lazy_dot_gt_tag p after :
  ~ In c_gt p -> ~ In c_nl p ->
  lazy_dot_gt (p ++ c_gt :: after) = Some (length p).
Proof.
  induction p as [|c p IH]; simpl; intros Hgt Hnl; [reflexivity|].
  destruct (N.eqb_spec c c_gt); [exfalso; auto|].
  destruct (N.eqb_spec c c_nl); [exfalso; auto|].
  rewrite IH by tauto. reflexivity.
Qed.

Lemma lazy_dot_gt_Some s n :
  lazy_dot_gt s = Some n ->
  exists p after,
    s = p ++ c_gt :: after /\ ~ In c_gt p /\ ~ In c_nl p /\ n = length p.
Proof.
  revert n. induction s as [|c s IH]; intros n; simpl; [discriminate|].
  destruct (N.eqb_spec c c_gt) as [->|Hgt].
  - intros H. injection H as <-. exists [], s. simpl. tauto.
  - destruct (N.eqb_spec c c_nl) as [->|Hnl]; [discriminate|].
    destruct (lazy_dot_gt s) as [k|]; [|discriminate].
    intros H. injection H as <-.
    destruct (IH k eq_refl) as [p [after [-> [H1 [H2 ->]]]]].
    exists (c :: p), after. simpl. repeat split; try reflexivity.
    + intros [E|E]; [congruence | tauto].
    + intros [E|E]; [congruence | tauto].
Qed.

Lemma image_match_here_tag p after :
  ~ In c_gt p -> ~ In c_nl p ->
  image_match_here (c_lt :: p ++ c_gt :: after) = Some (length p + 2).
Proof.
  intros Hgt Hnl. simpl. now rewrite lazy_dot_gt_tag.
Qed.

Lemma image_match_here_Some s e :
  image_match_here s = Some e ->
  exists p after, tag_at s [] p after /\ e = length p + 2.
Proof.
  destruct s as [|c s]; simpl; [discriminate|].
  destruct (N.eqb_spec c c_lt) as [->|]; [|discriminate].
  destruct (lazy_dot_gt s) as [n|] eqn:E; [|discriminate].
  intros H. injection H as <-.
  destruct (lazy_dot_gt_Some _ _ E) as [p [after [-> [H1 [H2 ->]]]]].
  exists p, after. unfold tag_at. simpl. auto.
Qed.

Lemma first_tag_tail c s before p after :
  first_tag (c :: s) (c :: before) p after -> first_tag s before p after.
Proof.
  intros [[H [Hgt Hnl]] Hfirst]. simpl in H. injection H as H.
  split; [split; auto|].
  intros b' p' a' [Hs [Hgt' Hnl']].
  specialize (Hfirst (c :: b') p' a'). simpl in Hfirst.
  apply le_S_n, Hfirst. split; [now rewrite Hs | auto].
Qed.

Lemma first_tag_cons c s before p after :
  image_match_here (c :: s) = None ->
  first_tag s before p after -> first_tag (c :: s) (c :: before) p after.
Proof.
  intros Hno [[H [Hgt Hnl]] Hfirst].
  split; [split; [simpl; now rewrite H | auto]|].
  intros b' p' a' [Hs [Hgt' Hnl']]. destruct b' as [|d b'].
  - exfalso. simpl in Hs. rewrite Hs, image_match_here_tag in Hno by assumption.
    discriminate.
  - simpl in *. injection Hs as -> Hs. apply le_n_S.
    apply (Hfirst b' p' a'). split; auto.
Qed.

(** [re.search(r"<(.*?)>", s)] finds the leftmost image tag. *)
Lemma search_image_first s before p after :
  first_tag s before p after ->
  search_image s =
    Some {| m_start := length before; m_end := length before + length p + 2 |}.
Proof.
  revert s. induction before as [|c before IH]; intros s Hf.
  - destruct Hf as [[-> [Hgt Hnl]] _]. cbn [app search_image].
    now rewrite image_match_here_tag.
  - destruct s as [|d s]; [destruct Hf as [[H _] _]; discriminate|].
    assert (d = c) as -> by (destruct Hf as [[H _] _]; simpl in H; congruence).
    cbn [search_image]. destruct (image_match_here (c :: s)) as [e|] eqn:Hh.
    + exfalso. destruct (image_match_here_Some _ _ Hh) as [p' [a' [Ht _]]].
      destruct Hf as [_ Hfirst]. specialize (Hfirst _ _ _ Ht). simpl in Hfirst. lia.
    + rewrite (IH s (first_tag_tail _ _ _ _ _ Hf)). reflexivity.
Qed.

Lemma search_image_Some s m :
  search_image s = Some m ->
  exists before p after,
    first_tag s before p after /\
    m_start m = length before /\ m_end m = length before + length p + 2.
Proof.
  revert m. induction s as [|c s IH]; intros m; [discriminate|].
  cbn [search_image]. destruct (image_match_here (c :: s)) as [e|] eqn:Hh.
  - intros H. injection H as <-.
    destruct (image_match_here_Some _ _ Hh) as [p [after [Ht ->]]].
    exists [], p, after. repeat split; try apply Ht. intros; simpl; lia.
  - destruct (search_image s) as [m1|]; [|discriminate].
    intros H. injection H as <-.
    destruct (IH m1 eq_refl) as [before [p [after [Hf [H1 H2]]]]].
    exists (c :: before), p, after. split.
    + now apply first_tag_cons.
    + simpl. lia.
Qed.

Lemma search_image_None s :
  search_image s = None -> forall before p after, ~ tag_at s before p after.
Proof.
  induction s as [|c s IH]; intros Hs b p a [H [Hgt Hnl]].
  - destruct b; discriminate.
  - cbn [search_image] in Hs.
    destruct (image_match_here (c :: s)) eqn:Hh; [discriminate|].
    destruct (search_image s); [discriminate|].
    destruct b as [|d b].
    + simpl in H. rewrite H, image_match_here_tag in Hh by assumption.
      discriminate.
    + simpl in H. injection H as _ H. apply (IH eq_refl b p a). split; auto.
Qed.

(** Some tag in the text makes the search succeed, at or before it. *)
Lemma search_image_tag s before p after :
  tag_at s before p after ->
  exists m, search_image s = Some m /\ m_start m <= length before.
Proof.
  intros Ht. destruct (search_image s) as [m|] eqn:E.
  - exists m. split; [reflexivity|].
    destruct (search_image_Some _ _ E) as [b [q [a [[_ Hfirst] [-> _]]]]].
    exact (Hfirst _ _ _ Ht).
  - exfalso. exact (search_image_None _ E _ _ _ Ht).
Qed.

Lemma group1_tag before p after :
  group1 (before ++ c_lt :: p ++ c_gt :: after)
    {| m_start := length before; m_end := length before + length p + 2 |} = p.
Proof.
  unfold group1, slice. cbn [m_start m_end].
  replace (length before + length p + 2 - 1 - S (length before))
    with (length p) by lia.
  replace (S (length before)) with (length (before ++ [c_lt]))
    by (rewrite length_app; simpl; lia).
  replace (before ++ c_lt :: p ++ c_gt :: after)
    with ((before ++ [c_lt]) ++ p ++ c_gt :: after)
    by (rewrite <- app_assoc; reflexivity).
  rewrite skipn_length_app. apply firstn_length_app.
Qed.

(** ** The two break patterns *)

Lemma matches_weaken (p q : pattern) m :
  Forall2 (fun (k k' : charclass) => forall c, k c = true -> k' c = true) p q ->
  matches p m -> matches q m.
Proof.
  intros Hpq. revert m. induction Hpq as [|k k' p q Hk _ IH]; intros m Hm.
  - inversion Hm. constructor.
  - inversion Hm; subst. constructor; [now apply Hk | now apply IH].
Qed.

(** What the search accepts, the split accepts too. *)
Lemma break_re_ignorecase_wider m :
  matches break_re m -> matches break_re_ignorecase m.
Proof.
  apply matches_weaken. unfold break_re, break_re_ignorecase.
  repeat constructor; unfold lit, one_of; intros c H;
    rewrite ?H, ?orb_true_r; try reflexivity; try assumption.
Qed.

Lemma length_break_re : length break_re = 7.
Proof. reflexivity. Qed.

Lemma length_break_re_ignorecase : length break_re_ignorecase = 7.
Proof. reflexivity. Qed.

(** When the search finds a marker, the split finds one at or before it. *)
Lemma split_marker_exists s bm :
  re_search break_re s = Some bm ->
  exists before m after,
    first_match break_re_ignorecase s before m after /\
    length before <= m_start bm.
Proof.
  intros H. destruct (re_search_Some _ _ _ H) as [b [m [a [[Hs [Hm _]] [Hst _]]]]].
  apply break_re_ignorecase_wider in Hm.
  destruct (re_search break_re_ignorecase s) as [im|] eqn:E.
  - destruct (re_search_Some _ _ _ E) as [b' [m' [a' [Hf _]]]].
    exists b', m', a'. split; [assumption|].
    destruct Hf as [_ [_ Hfirst]]. rewrite Hst. exact (Hfirst _ _ _ Hs Hm).
  - exfalso. exact (re_search_None _ _ E _ _ _ Hs Hm).
Qed.

(** ** One iteration of the loop *)

Lemma break_arm_first_match self before m after :
  first_match break_re_ignorecase (_text self) before m after ->
  break_arm self =
    BreakArm
      {| _text := strip after;
         _story := if 2 <? length (page_of before)
                   then _story self ++ [page_of before] else _story self |}
      (if 2 <? length (page_of before)
       then [StoryPageFrame (page_of before);
             DailyTransportMessageFrame CUE_ASSISTANT_TURN]
       else []).
Proof.
  intros Hf. unfold break_arm, re_split1.
  rewrite (re_search_first _ _ _ _ _ Hf). cbn [m_start m_end nth length].
  destruct Hf as [Hs [Hm _]]. rewrite Hs.
  unfold slice_to, slice_from. rewrite firstn_length_app.
  replace (length before + length break_re_ignorecase)
    with (length (before ++ m))
    by (rewrite length_app, (matches_length _ _ Hm); reflexivity).
  rewrite app_assoc, skipn_length_app. fold (page_of before).
  replace (1 <? 2) with true by reflexivity.
  destruct (2 <? length (page_of before)); reflexivity.
Qed.

Lemma image_arm_tag self before p after :
  _text self = before ++ c_lt :: p ++ c_gt :: after ->
  image_arm self
    {| m_start := length before; m_end := length before + length p + 2 |} =
  ImageArm (set_text self (before ++ after)) [StoryImageFrame p].
Proof.
  intros H. unfold image_arm. rewrite H, group1_tag. cbn [m_start m_end].
  unfold slice_to, slice_from. rewrite firstn_length_app.
  replace (before ++ c_lt :: p ++ c_gt :: after)
    with ((before ++ c_lt :: p ++ [c_gt]) ++ after)
    by (rewrite <- app_assoc; simpl; rewrite <- app_assoc; reflexivity).
  replace (length before + length p + 2)
    with (length (before ++ c_lt :: p ++ [c_gt]))
    by (rewrite length_app; simpl; rewrite length_app; simpl; lia).
  rewrite skipn_length_app. reflexivity.
Qed.

(** The three ways an iteration can go, with what decides each. *)
Lemma loop_body_cases self :
  (search_image (_text self) = None /\ re_search break_re (_text self) = None /\
   loop_body self = Stop)
  \/
  (exists before p after,
     first_tag (_text self) before p after /\
     (forall bm, re_search break_re (_text self) = Some bm ->
                 length before < m_start bm) /\
     loop_body self =
       ImageArm (set_text self (before ++ after)) [StoryImageFrame p])
  \/
  (exists bm before m after,
     re_search break_re (_text self) = Some bm /\
     (forall im, search_image (_text self) = Some im ->
                 m_start bm <= m_start im) /\
     first_match break_re_ignorecase (_text self) before m after /\
     length before <= m_start bm /\
     loop_body self = break_arm self).
Proof.
  unfold loop_body.
  destruct (search_image (_text self)) as [im|] eqn:Ei;
    destruct (re_search break_re (_text self)) as [bm|] eqn:Eb; cbn [pos_of pos_lt].
  - destruct (Nat.ltb_spec (m_start im) (m_start bm)) as [Hlt|Hge].
    + right; left.
      destruct (search_image_Some _ _ Ei) as [b [p [a [Hf [H1 H2]]]]].
      exists b, p, a. split; [assumption|]. split.
      * intros bm' E. injection E as <-. lia.
      * destruct im as [st en]. cbn [m_start m_end] in *. subst st en.
        apply image_arm_tag. apply Hf.
    + right; right.
      destruct (split_marker_exists _ _ Eb) as [b [m [a [Hf Hle]]]].
      exists bm, b, m, a. split; [reflexivity|]. split.
      { intros im' E. injection E as <-. assumption. }
      split; [exact Hf|]. split; [exact Hle | reflexivity].
  - right; left.
    destruct (search_image_Some _ _ Ei) as [b [p [a [Hf [H1 H2]]]]].
    exists b, p, a. split; [assumption|]. split; [discriminate|].
    destruct im as [st en]. cbn [m_start m_end] in *. subst st en.
    apply image_arm_tag. apply Hf.
  - right; right.
    destruct (split_marker_exists _ _ Eb) as [b [m [a [Hf Hle]]]].
    exists bm, b, m, a. split; [reflexivity|]. split; [discriminate|].
    split; [exact Hf|]. split; [exact Hle | reflexivity].
  - left. auto.
Qed.

(** The image arm is taken when the leftmost tag starts before every
    marker the search knows. *)
Lemma loop_body_first_tag self before p after :
  first_tag (_text self) before p after ->
  (forall b m a, _text self = b ++ m ++ a -> matches break_re m ->
                 length before < length b) ->
  loop_body self =
    ImageArm (set_text self (before ++ after)) [StoryImageFrame p].
Proof.
  intros Hf Hbreak.
  unfold loop_body. rewrite (search_image_first _ _ _ _ Hf).
  destruct Hf as [[Hs _] _].
  destruct (re_search break_re (_text self)) as [bm|] eqn:Eb;
    cbn [pos_of pos_lt m_start].
  - destruct (re_search_Some _ _ _ Eb) as [b [m [a [[Hs' [Hm _]] [Hst _]]]]].
    specialize (Hbreak _ _ _ Hs' Hm).
    replace (length before <? m_start bm) with true
      by (symmetry; apply Nat.ltb_lt; lia).
    now apply image_arm_tag.
  - now apply image_arm_tag.
Qed.

(** The break arm is taken when no tag starts before the leftmost marker
    the search knows. *)
Lemma loop_body_first_marker self b0 m0 a0 :
  first_match break_re (_text self) b0 m0 a0 ->
  (forall b p a, tag_at (_text self) b p a -> length b0 <= length b) ->
  loop_body self = break_arm self.
Proof.
  intros Hb Htag.
  pose proof (re_search_first _ _ _ _ _ Hb) as Eb.
  destruct (loop_body_cases self) as
    [[_ [E _]] | [[b [p [a [[Ht _] [Hlt _]]]]] | [bm [b [m [a [_ [_ [_ [_ E]]]]]]]]]].
  - congruence.
  - exfalso. specialize (Hlt _ Eb). cbn [m_start] in Hlt.
    specialize (Htag _ _ _ Ht). lia.
  - exact E.
Qed.

(** ** The loop *)

Lemma loop_body_shrinks self self' pushed :
  loop_body self = ImageArm self' pushed \/
  loop_body self = BreakArm self' pushed ->
  length (_text self') < length (_text self).
Proof.
  intros H.
  destruct (loop_body_cases self) as
    [[_ [_ E]] | [[b [p [a [[[Hs _] _] [_ E]]]]] | [bm [b [m [a [_ [_ [Hf [_ E]]]]]]]]]];
    rewrite E in H.
  - destruct H; discriminate.
  - destruct H as [H|H]; [|discriminate]. injection H as <- _.
    rewrite Hs. cbn [set_text _text]. rewrite !length_app. simpl.
    rewrite length_app. simpl. lia.
  - rewrite (break_arm_first_match _ _ _ _ Hf) in H.
    destruct H as [H|H]; [discriminate|]. injection H as <- _.
    cbn [_text]. destruct Hf as [Hs [Hm _]]. rewrite Hs, !length_app.
    rewrite (matches_length _ _ Hm), length_break_re_ignorecase.
    pose proof (length_strip a). lia.
Qed.

Lemma runs_ends_stopped self final pushed :
  runs self final pushed -> loop_body final = Stop.
Proof. induction 1; assumption. Qed.

Lemma runs_deterministic self f1 p1 f2 p2 :
  runs self f1 p1 -> runs self f2 p2 -> f1 = f2 /\ p1 = p2.
Proof.
  intros H1. revert f2 p2.
  induction H1 as [s E | s s' o f o' E _ IH | s s' o f o' E _ IH];
    intros f2 p2 H2; inversion H2; subst; try congruence.
  - auto.
  - assert (Heq : ImageArm s' o = ImageArm self' pushed) by congruence.
    injection Heq as <- <-. destruct (IH _ _ H0) as [-> ->]. auto.
  - assert (Heq : BreakArm s' o = BreakArm self' pushed) by congruence.
    injection Heq as <- <-. destruct (IH _ _ H0) as [-> ->]. auto.
Qed.

Lemma while_true_runs fuel self final pushed :
  while_true fuel self = Some (final, pushed) -> runs self final pushed.
Proof.
  revert self final pushed. induction fuel as [|fuel IH]; intros s f p; [discriminate|].
  simpl. destruct (loop_body s) as [|s' o|s' o] eqn:E.
  - intros H. injection H as <- <-. now constructor.
  - destruct (while_true fuel s') as [[f' o']|] eqn:Ew; [|discriminate].
    intros H. injection H as <- <-. eapply runs_image; eauto.
  - destruct (while_true fuel s') as [[f' o']|] eqn:Ew; [|discriminate].
    intros H. injection H as <- <-. eapply runs_break; eauto.
Qed.

(** More fuel than the buffer has characters is enough. *)
Lemma while_true_enough fuel self :
  length (_text self) < fuel ->
  exists final pushed, while_true fuel self = Some (final, pushed).
Proof.
  revert self. induction fuel as [|fuel IH]; intros s Hlen; [lia|].
  simpl. destruct (loop_body s) as [|s' o|s' o] eqn:E.
  - eauto.
  - assert (Hs : length (_text s') < length (_text s))
      by (eapply loop_body_shrinks; eauto).
    destruct (IH s') as [f [p Hw]]; [lia|]. rewrite Hw. eauto.
  - assert (Hs : length (_text s') < length (_text s))
      by (eapply loop_body_shrinks; eauto).
    destruct (IH s') as [f [p Hw]]; [lia|]. rewrite Hw. eauto.
Qed.

Lemma process_text_content_fuel self :
  while_true (S (length (_text self))) self = Some (process_text_content self).
Proof.
  unfold process_text_content.
  destruct (while_true_enough (S (length (_text self))) self) as [f [p H]]; [lia|].
  rewrite H. reflexivity.
Qed.

Lemma process_text_content_runs self :
  runs self (fst (process_text_content self)) (snd (process_text_content self)).
Proof.
  pose proof (process_text_content_fuel self) as H.
  destruct (process_text_content self) as [f p]. now apply while_true_runs in H.
Qed.

Lemma runs_process_text_content self final pushed :
  runs self final pushed -> process_text_content self = (final, pushed).
Proof.
  intros H. pose proof (process_text_content_runs self) as H'.
  destruct (runs_deterministic _ _ _ _ _ H H') as [-> ->].
  now destruct (process_text_content self).
Qed.

(** The loop unfolded once. *)
Lemma process_text_content_step self :
  process_text_content self =
    match loop_body self with
    | Stop => (self, [])
    | ImageArm self' pushed | BreakArm self' pushed =>
        (fst (process_text_content self'),
         pushed ++ snd (process_text_content self'))
    end.
Proof.
  destruct (loop_body self) as [|s' o|s' o] eqn:E;
    apply runs_process_text_content.
  - now constructor.
  - eapply runs_image; [exact E | apply process_text_content_runs].
  - eapply runs_break; [exact E | apply process_text_content_runs].
Qed.

Lemma re_search_split p s mm :
  re_search p s = Some mm ->
  first_match p s (slice_to (m_start mm) s)
    (slice (m_start mm) (m_end mm) s) (slice_from (m_end mm) s).
Proof.
  intros H. destruct (re_search_Some _ _ _ H) as [b [m [a [Hf [H1 H2]]]]].
  destruct Hf as [Hs [Hm Hfirst]].
  unfold slice_to, slice_from, slice. rewrite H1, H2, Hs.
  rewrite firstn_length_app, skipn_length_app.
  replace (length b + length p - length b) with (length m)
    by (rewrite (matches_length _ _ Hm); lia).
  rewrite firstn_length_app.
  replace (length b + length p) with (length (b ++ m))
    by (rewrite length_app, (matches_length _ _ Hm); reflexivity).
  rewrite app_assoc, skipn_length_app, <- app_assoc.
  split; [reflexivity|]. split; [assumption|].
  intros b' m' a' Hs' Hm'. apply (Hfirst b' m' a'); [|assumption].
  now rewrite <- Hs'.
Qed.

(** ** The extraction loop, step by step *)

(** C7: the extraction loop terminates on every buffer.  An iteration that
    takes the image arm or the break arm leaves a strictly shorter buffer,
    and the loop unrolled one time more than the buffer has characters
    leaves through its [break], in a state where no pattern is found. *)
Theorem extraction_loop_terminates (self : StoryProcessor) :
  match loop_body self with
  | Stop => True
  | ImageArm self' _ | BreakArm self' _ =>
      length (_text self') < length (_text self)
  end /\
  exists final pushed,
    while_true (S (length (_text self))) self = Some (final, pushed) /\
    process_text_content self = (final, pushed) /\
    loop_body final = Stop.
Proof.
  split.
  - destruct (loop_body self) as [|s' o|s' o] eqn:E; [exact I| |];
      eapply loop_body_shrinks; eauto.
  - pose proof (process_text_content_fuel self) as Hw.
    pose proof (process_text_content_runs self) as Hr.
    destruct (process_text_content self) as [f o]. exists f, o.
    split; [assumption|]. split; [reflexivity|].
    exact (runs_ends_stopped _ _ _ Hr).
Qed.

Example break_marker_step_run :
  loop_body {| _text := py "Once upon" ++ c_nl :: py "a time. [Break] <a castle";
               _story := [] |} =
  BreakArm {| _text := py "<a castle"; _story := [py "Once upon a time."] |}
           [StoryPageFrame (py "Once upon a time.");
            DailyTransportMessageFrame CUE_ASSISTANT_TURN].
Proof. reflexivity. Qed.

(** The boundary of the length test: two characters before the marker
    make no page, the buffer moves on all the same. *)
Example short_segment_dropped :
  loop_body {| _text := py " ab [break] cd"; _story := [] |} =
  BreakArm {| _text := py "cd"; _story := [] |} [].
Proof. reflexivity. Qed.

(** C4, on the code: the search of line 123 knows [[break]] and [[Break]]
    only, so a buffer holding [[BREAK]] is left as it is and nothing is
    pushed, while the split of line 141 does accept that casing: with a
    later [[break]] in the buffer the text is cut at [[BREAK]]. *)
Theorem uppercase_marker_not_detected :
  re_search break_re (py "abc[BREAK]") = None /\
  process_text_content {| _text := py "abc[BREAK]"; _story := [] |} =
    ({| _text := py "abc[BREAK]"; _story := [] |}, []) /\
  process_text_content {| _text := py "abc[Break]"; _story := [] |} =
    ({| _text := []; _story := [py "abc"] |},
     [StoryPageFrame (py "abc"); DailyTransportMessageFrame CUE_ASSISTANT_TURN]) /\
  re_split1 break_re_ignorecase (py "abc[BREAK]def[break]") =
    [py "abc"; py "def[break]"] /\
  loop_body {| _text := py "abc[BREAK]def[break]"; _story := [] |} =
    BreakArm {| _text := py "def[break]"; _story := [py "abc"] |}
      [StoryPageFrame (py "abc"); DailyTransportMessageFrame CUE_ASSISTANT_TURN].
Proof. repeat split; reflexivity. Qed.

(** ** [process_frame], frame by frame *)

Lemma process_frames_app self frames frames' :
  process_frames self (frames ++ frames') =
    (fst (process_frames (fst (process_frames self frames)) frames'),
     snd (process_frames self frames)
     ++ snd (process_frames (fst (process_frames self frames)) frames')).
Proof.
  revert self. induction frames as [|frame frames IH]; intros self.
  - cbn. now destruct (process_frames self frames').
  - cbn [app process_frames].
    destruct (process_frame self frame DOWNSTREAM) as [s1 o1].
    rewrite (IH s1). destruct (process_frames s1 frames) as [s2 o2].
    cbn [fst snd]. now rewrite app_assoc.
Qed.

(** C3, as the code has it: the end-of-response marker makes the stage push
    a prompt frame with the buffer's text, empty or not, then the marker
    itself, the "user's turn" cue and the listening sound, in this order,
    and leaves the buffer empty and the story as it was; so it is after any
    frames that came before, with the buffer they left. *)
Theorem end_of_response_flush
  (self : StoryProcessor) (d : FrameDirection) (frames : list Frame) :
  process_frame self LLMFullResponseEndFrame d =
    ({| _text := []; _story := _story self |},
     [StoryPromptFrame (_text self); LLMFullResponseEndFrame;
      DailyTransportMessageFrame CUE_USER_TURN; sounds listening]) /\
  process_frames self (frames ++ [LLMFullResponseEndFrame]) =
    ({| _text := []; _story := _story (fst (process_frames self frames)) |},
     snd (process_frames self frames)
     ++ [StoryPromptFrame (_text (fst (process_frames self frames)));
         LLMFullResponseEndFrame;
         DailyTransportMessageFrame CUE_USER_TURN; sounds listening]).
Proof.
  split; [reflexivity|].
  rewrite process_frames_app. destruct (process_frames self frames) as [s1 o1].
  reflexivity.
Qed.

(** C3 as stated fails on an empty buffer: a prompt frame is pushed, with
    the empty text. *)
Lemma prompt_frame_on_empty_buffer :
  _text {| _text := []; _story := [] |} = [] /\
  In (StoryPromptFrame [])
     (snd (process_frame {| _text := []; _story := [] |}
             LLMFullResponseEndFrame DOWNSTREAM)).
Proof. split; [reflexivity | left; reflexivity]. Qed.

Example end_of_response_hello :
  process_frame {| _text := py "hello"; _story := [] |}
    LLMFullResponseEndFrame DOWNSTREAM =
  ({| _text := []; _story := [] |},
   [StoryPromptFrame (py "hello"); LLMFullResponseEndFrame;
    DailyTransportMessageFrame CUE_USER_TURN; OutputAudioRawFrame listening]).
Proof. reflexivity. Qed.

(** A prompt frame fed to the stage is swallowed into the buffer. *)
Example prompt_frame_swallowed :
  process_frame {| _text := py "Once "; _story := [] |}
    (StoryPromptFrame (py "upon")) DOWNSTREAM =
  ({| _text := py "Once upon"; _story := [] |}, []).
Proof. reflexivity. Qed.

(** ** The story *)

Lemma pages_of_app a b : pages_of (a ++ b) = pages_of a ++ pages_of b.
Proof. unfold pages_of. apply flat_map_app. Qed.

Lemma page_of_ok before : 2 < length (page_of before) -> page_ok (page_of before).
Proof.
  intros Hlen. unfold page_ok, page_of in *. repeat split.
  - intros H. apply strip_incl in H. exact (replace_nl_space_no_nl _ H).
  - intros c s. apply strip_head.
  - intros s c. apply strip_last.
  - assumption.
Qed.

(** One iteration appends to the story what it pushes as page frames. *)
Lemma loop_body_story self :
  match loop_body self with
  | Stop => True
  | ImageArm self' pushed | BreakArm self' pushed =>
      _story self' = _story self ++ pages_of pushed /\
      Forall page_ok (pages_of pushed)
  end.
Proof.
  destruct (loop_body_cases self) as
    [[_ [_ E]] | [[b [p [a [_ [_ E]]]]] | [bm [b [m [a [_ [_ [Hf [_ E]]]]]]]]]];
    rewrite E.
  - exact I.
  - cbn. rewrite app_nil_r. auto.
  - rewrite (break_arm_first_match _ _ _ _ Hf). cbn [_story].
    destruct (Nat.ltb_spec 2 (length (page_of b))) as [Hlen|Hlen]; cbn.
    + split; [reflexivity|]. constructor; [now apply page_of_ok | constructor].
    + rewrite app_nil_r. auto.
Qed.

Lemma runs_story self final pushed :
  runs self final pushed ->
  _story final = _story self ++ pages_of pushed /\
  Forall page_ok (pages_of pushed).
Proof.
  induction 1 as [s E | s s' o f o' E _ [IH1 IH2] | s s' o f o' E _ [IH1 IH2]].
  - cbn. rewrite app_nil_r. auto.
  - pose proof (loop_body_story s) as H. rewrite E in H. destruct H as [H1 H2].
    rewrite pages_of_app, IH1, H1, app_assoc. split; [reflexivity|].
    apply Forall_app; auto.
  - pose proof (loop_body_story s) as H. rewrite E in H. destruct H as [H1 H2].
    rewrite pages_of_app, IH1, H1, app_assoc. split; [reflexivity|].
    apply Forall_app; auto.
Qed.

Lemma process_frame_story self frame d :
  _story (fst (process_frame self frame d)) =
    _story self ++ pages_of (snd (process_frame self frame d)) /\
  Forall page_ok (pages_of (snd (process_frame self frame d))).
Proof.
  assert (Hloop : forall text,
    _story (fst (process_text_content (set_text self (_text self ++ text)))) =
      _story self ++
      pages_of (snd (process_text_content (set_text self (_text self ++ text)))) /\
    Forall page_ok
      (pages_of (snd (process_text_content (set_text self (_text self ++ text)))))).
  { intros text.
    exact (runs_story _ _ _ (process_text_content_runs
                               (set_text self (_text self ++ text)))). }
  destruct frame; cbn [process_frame isinstance_TextFrame]; try apply Hloop;
    cbn; rewrite app_nil_r; auto.
Qed.

(** C10: over any sequence of frames delivered to the stage, the story
    grows by exactly the texts of the page frames pushed, in the order they
    are pushed, and each such text has no newline, no whitespace at its
    start or end, and more than two characters. *)
Theorem story_invariant (self : StoryProcessor) (frames : list Frame) :
  _story (fst (process_frames self frames)) =
    _story self ++ pages_of (snd (process_frames self frames)) /\
  Forall page_ok (pages_of (snd (process_frames self frames))).
Proof.
  revert self. induction frames as [|frame frames IH]; intros self.
  - cbn. rewrite app_nil_r. auto.
  - cbn [process_frames].
    destruct (process_frame_story self frame DOWNSTREAM) as [H1 H2].
    destruct (process_frame self frame DOWNSTREAM) as [s1 o1].
    destruct (IH s1) as [H3 H4].
    destruct (process_frames s1 frames) as [s2 o2]. cbn [fst snd] in *.
    rewrite pages_of_app, H3, H1, app_assoc. split; [reflexivity|].
    apply Forall_app; auto.
Qed.

Example story_invariant_run :
  process_frames {| _text := []; _story := [] |}
    [TextFrame (py "  The fox"); TextFrame (c_nl :: py "ran. [bre");
     TextFrame (py "ak] a [Break] <fox>Then "); LLMFullResponseEndFrame] =
  ({| _text := []; _story := [py "The fox ran."] |},
   [StoryPageFrame (py "The fox ran.");
    DailyTransportMessageFrame CUE_ASSISTANT_TURN;
    StoryImageFrame (py "fox");
    StoryPromptFrame (py "Then"); LLMFullResponseEndFrame;
    DailyTransportMessageFrame CUE_USER_TURN; OutputAudioRawFrame listening]).
Proof. reflexivity. Qed.

(** ** The buffer *)

(** C8 as stated fails at a break step: removing the consumed text
    [abc[break]] from the buffer would leave [ d ] with its two spaces; the
    step leaves [d]. *)
Lemma break_step_trims_remainder :
  loop_body {| _text := py "abc[break] d "; _story := [] |} =
    BreakArm {| _text := py "d"; _story := [py "abc"] |}
      [StoryPageFrame (py "abc"); DailyTransportMessageFrame CUE_ASSISTANT_TURN] /\
  py "abc[break] d " = py "abc[break]" ++ py " d " /\
  py "d" <> py " d ".
Proof. repeat split; try reflexivity. discriminate. Qed.

(** ** Image tags *)

Lemma strip_infix (s : str) : infix (strip s) s.
Proof. destruct (strip_split s) as [l [r [H _]]]. exists l, r. exact H. Qed.

Lemma infix_trans (a b c : str) : infix a b -> infix b c -> infix a c.
Proof.
  intros [x [y ->]] [u [v ->]]. exists (u ++ x), (y ++ v).
  now rewrite <- !app_assoc.
Qed.

(** A text without space that occurs after the newlines were replaced was
    there before. *)
Lemma replace_nl_space_infix (t s : str) :
  ~ In c_space t -> infix t (replace_nl_space s) -> infix t s.
Proof.
  intros Hsp [a [b H]]. unfold replace_nl_space in H.
  apply map_eq_app in H. destruct H as [a' [r [-> [Ha Hr]]]].
  apply map_eq_app in Hr. destruct Hr as [t' [b' [-> [Ht Hb]]]].
  exists a', b'. f_equal. f_equal.
  clear - Hsp Ht. revert t Hsp Ht.
  induction t' as [|c t' IH]; intros t Hsp Ht; simpl in Ht; subst t; [reflexivity|].
  destruct (N.eqb_spec c c_nl) as [->|Hc].
  - exfalso. apply Hsp. now left.
  - f_equal. apply IH; [|reflexivity]. intros H. apply Hsp. now right.
Qed.

(** No page text holds a tag whose inner text has no [>], newline or
    space. *)
Lemma loop_body_page_no_tag self p page :
  ~ In c_gt p -> ~ In c_nl p -> ~ In c_space p ->
  match loop_body self with
  | Stop => True
  | ImageArm _ pushed | BreakArm _ pushed =>
      In page (pages_of pushed) -> ~ infix (c_lt :: p ++ [c_gt]) page
  end.
Proof.
  intros Hgt Hnl Hsp.
  destruct (loop_body_cases self) as
    [[_ [_ E]] | [[b [q [a [_ [_ E]]]]] | [bm [b [m [a [Eb [Him [Hf [Hle E]]]]]]]]]];
    rewrite E.
  - exact I.
  - cbn. tauto.
  - rewrite (break_arm_first_match _ _ _ _ Hf).
    destruct (2 <? length (page_of b)); cbn; [|tauto].
    intros [<-|[]] Hin.
    assert (Hb : infix (c_lt :: p ++ [c_gt]) b).
    { apply replace_nl_space_infix.
      - simpl. intros [H|H]; [discriminate|].
        apply in_app_or in H. destruct H as [H|[H|[]]]; [tauto | discriminate].
      - exact (infix_trans _ _ _ Hin (strip_infix _)). }
    destruct Hb as [x [y Hb]]. destruct Hf as [Hs _].
    assert (Ht : tag_at (_text self) x p (y ++ m ++ a)).
    { split; [|auto]. rewrite Hs, Hb. rewrite <- !app_assoc. simpl.
      rewrite <- !app_assoc. reflexivity. }
    destruct (search_image_tag _ _ _ _ Ht) as [im [Ei Hst]].
    specialize (Him _ Ei).
    rewrite Hb, !length_app in Hle. simpl in Hle. rewrite length_app in Hle.
    simpl in Hle. lia.
Qed.

Lemma runs_page_no_tag self final pushed p page :
  ~ In c_gt p -> ~ In c_nl p -> ~ In c_space p ->
  runs self final pushed ->
  In page (pages_of pushed) -> ~ infix (c_lt :: p ++ [c_gt]) page.
Proof.
  intros Hgt Hnl Hsp. induction 1 as [s E | s s' o f o' E _ IH | s s' o f o' E _ IH].
  - intros [].
  - rewrite pages_of_app. intros H. apply in_app_or in H. destruct H as [H|H]; [|auto].
    pose proof (loop_body_page_no_tag s p page Hgt Hnl Hsp) as Hb.
    rewrite E in Hb. auto.
  - rewrite pages_of_app. intros H. apply in_app_or in H. destruct H as [H|H]; [|auto].
    pose proof (loop_body_page_no_tag s p page Hgt Hnl Hsp) as Hb.
    rewrite E in Hb. auto.
Qed.

Lemma process_frames_page_no_tag self frames p page :
  ~ In c_gt p -> ~ In c_nl p -> ~ In c_space p ->
  In page (pages_of (snd (process_frames self frames))) ->
  ~ infix (c_lt :: p ++ [c_gt]) page.
Proof.
  intros Hgt Hnl Hsp. revert self.
  induction frames as [|frame frames IH]; intros self; [intros []|].
  cbn [process_frames].
  destruct (process_frame self frame DOWNSTREAM) as [s1 o1] eqn:E1.
  specialize (IH s1). destruct (process_frames s1 frames) as [s2 o2].
  cbn [snd] in *. rewrite pages_of_app. intros H. apply in_app_or in H.
  destruct H as [H|H]; [|auto].
  assert (Hloop : forall text,
    process_frame self frame DOWNSTREAM =
      process_text_content (set_text self (_text self ++ text)) ->
    ~ infix (c_lt :: p ++ [c_gt]) page).
  { intros text Ep. rewrite E1 in Ep.
    pose proof (process_text_content_runs (set_text self (_text self ++ text))) as Hr.
    rewrite <- Ep in Hr. exact (runs_page_no_tag _ _ _ _ _ Hgt Hnl Hsp Hr H). }
  destruct frame; try (apply (Hloop text); reflexivity);
    cbn in E1; injection E1 as <- <-; destruct H.
Qed.

Lemma search_image_split s m :
  search_image s = Some m ->
  first_tag s (slice_to (m_start m) s) (group1 s m) (slice_from (m_end m) s).
Proof.
  intros H. destruct (search_image_Some _ _ H) as [b [p [a [Hf [H1 H2]]]]].
  destruct m as [st en]. cbn [m_start m_end] in *. subst st en.
  pose proof Hf as [[Hs _] _].
  rewrite Hs at 2 3 4. rewrite group1_tag.
  unfold slice_to, slice_from. rewrite firstn_length_app.
  replace (b ++ c_lt :: p ++ c_gt :: a)
    with ((b ++ c_lt :: p ++ [c_gt]) ++ a)
    by (rewrite <- app_assoc; simpl; rewrite <- app_assoc; reflexivity).
  replace (length b + length p + 2)
    with (length (b ++ c_lt :: p ++ [c_gt]))
    by (rewrite length_app; simpl; rewrite length_app; simpl; lia).
  rewrite skipn_length_app. exact Hf.
Qed.

Lemma in_pages_of page frames :
  In (StoryPageFrame page) frames <-> In page (pages_of frames).
Proof.
  unfold pages_of. rewrite in_flat_map. split.
  - intros H. exists (StoryPageFrame page). split; [assumption | now left].
  - intros [f [Hf Hp]]. destruct f; cbn in Hp; try contradiction.
    destruct Hp as [<-|[]]. assumption.
Qed.

(** C2 as stated fails for an inner text with a newline: the tag is not
    found, no image frame is pushed and the buffer keeps it; and when a
    break marker follows, the page text carries the tag, delimiters
    included. *)
Lemma tag_with_newline_not_extracted :
  ~ In c_gt (py "a" ++ c_nl :: py "b") /\
  process_text_content
    {| _text := c_lt :: (py "a" ++ c_nl :: py "b") ++ [c_gt]; _story := [] |} =
    ({| _text := c_lt :: (py "a" ++ c_nl :: py "b") ++ [c_gt]; _story := [] |},
     []) /\
  process_text_content
    {| _text := c_lt :: (py "a" ++ c_nl :: py "b") ++ c_gt :: py " xyz[break]";
       _story := [] |} =
    ({| _text := []; _story := [py "<a b> xyz"] |},
     [StoryPageFrame (py "<a b> xyz");
      DailyTransportMessageFrame CUE_ASSISTANT_TURN]).
Proof.
  split; [|split; reflexivity].
  cbn. intros [H|[H|[H|[]]]]; discriminate.
Qed.

(** C2, as the code has it.  When the leftmost image tag of the buffer has
    the inner text [p] (no [>] in it, and no newline) and no break marker
    the search knows starts before the tag, the iteration pushes exactly one
    image frame, with the text [p], and takes exactly the span of the tag
    out of the buffer, the text before and after it now adjacent and
    unchanged.  If [p] has no space either, no page text pushed afterwards,
    in the rest of this loop or for later frames, holds the tag. *)
Theorem image_tag_step (self : StoryProcessor) (before p after : str) :
  first_tag (_text self) before p after ->
  (forall b m a, _text self = b ++ m ++ a -> matches break_re m ->
                 length before < length b) ->
  loop_body self =
    ImageArm (set_text self (before ++ after)) [StoryImageFrame p] /\
  (~ In c_space p ->
   forall frames page,
     In (StoryPageFrame page)
        (snd (process_text_content (set_text self (before ++ after))) ++
         snd (process_frames
                (fst (process_text_content (set_text self (before ++ after))))
                frames)) ->
     ~ infix (c_lt :: p ++ [c_gt]) page).
Proof.
  intros Hf Hbreak. split.
  - now apply loop_body_first_tag.
  - intros Hsp frames page Hin.
    destruct Hf as [[_ [Hgt Hnl]] _].
    apply in_app_or in Hin. destruct Hin as [Hin|Hin].
    + apply in_pages_of in Hin.
      exact (runs_page_no_tag _ _ _ _ _ Hgt Hnl Hsp
               (process_text_content_runs _) Hin).
    + apply in_pages_of in Hin.
      exact (process_frames_page_no_tag _ _ _ _ Hgt Hnl Hsp Hin).
Qed.

Lemma image_tag_step_witness :
  loop_body {| _text := py "Once <castle> upon[break]"; _story := [] |} =
    ImageArm (set_text {| _text := py "Once <castle> upon[break]"; _story := [] |}
                (py "Once " ++ py " upon[break]"))
             [StoryImageFrame (py "castle")] /\
  (~ In c_space (py "castle") ->
   forall frames page,
     In (StoryPageFrame page)
        (snd (process_text_content
                (set_text {| _text := py "Once <castle> upon[break]"; _story := [] |}
                   (py "Once " ++ py " upon[break]"))) ++
         snd (process_frames
                (fst (process_text_content
                        (set_text {| _text := py "Once <castle> upon[break]";
                                     _story := [] |}
                           (py "Once " ++ py " upon[break]"))))
                frames)) ->
     ~ infix (c_lt :: py "castle" ++ [c_gt]) page).
Proof.
  apply (image_tag_step
           {| _text := py "Once <castle> upon[break]"; _story := [] |}
           (py "Once ") (py "castle") (py " upon[break]")).
  - exact (search_image_split (py "Once <castle> upon[break]")
             {| m_start := 5; m_end := 13 |} eq_refl).
  - intros b m a Hs Hm.
    pose proof (re_search_split break_re (py "Once <castle> upon[break]")
                  {| m_start := 18; m_end := 25 |} eq_refl) as [_ [_ Hfirst]].
    specialize (Hfirst b m a Hs Hm). cbn in Hfirst. cbn. lia.
Defined.

Example image_tag_step_run :
  process_text_content {| _text := py "Once <castle> upon[break]"; _story := [] |} =
  ({| _text := []; _story := [py "Once  upon"] |},
   [StoryImageFrame (py "castle"); StoryPageFrame (py "Once  upon");
    DailyTransportMessageFrame CUE_ASSISTANT_TURN]).
Proof. reflexivity. Qed.

(** ** The image stage *)

Lemma arrivals_later now gen :
  Forall (fun ti => (now <= fst ti)%N) (arrivals now gen).
Proof.
  revert now. induction gen as [|[w i] gen IH]; intros now; cbn; constructor.
  - cbn. lia.
  - eapply Forall_impl; [|apply IH]. cbn. intros a H. lia.
Qed.

(** The frames pushed are those that arrive before the deadline. *)
Lemma async_for_push_arrivals deadline now gen fin :
  fst (async_for_push deadline now gen fin) =
    map snd (filter (fun ti => (fst ti <? deadline)%N) (arrivals now gen)).
Proof.
  revert now. induction gen as [|[w i] gen IH]; intros now; cbn.
  - destruct (now + fin <? deadline)%N; reflexivity.
  - destruct (N.ltb_spec (now + w) deadline) as [Hlt|Hge].
    + specialize (IH (now + w)%N).
      destruct (async_for_push deadline (now + w) gen fin) as [o h].
      cbn in *. now rewrite IH.
    + cbn. pose proof (arrivals_later (now + w) gen) as Hall.
      induction Hall as [|a l Ha _ IHl]; [reflexivity|].
      cbn. destruct (N.ltb_spec (fst a) deadline); [lia | exact IHl].
Qed.

Lemma async_for_push_prefix deadline now gen fin :
  exists k, fst (async_for_push deadline now gen fin) = firstn k (map snd gen).
Proof.
  revert now. induction gen as [|[w i] gen IH]; intros now; cbn.
  - exists 0. destruct (now + fin <? deadline)%N; reflexivity.
  - destruct (now + w <? deadline)%N; [|exists 0; reflexivity].
    destruct (IH (now + w)%N) as [k Hk].
    destruct (async_for_push deadline (now + w) gen fin) as [o h].
    exists (S k). cbn in *. now rewrite Hk.
Qed.

Lemma async_for_push_completes deadline now gen fin :
  (now + fold_right (fun wi t => fst wi + t) 0 gen + fin < deadline)%N ->
  async_for_push deadline now gen fin = (map snd gen, Completed).
Proof.
  revert now. induction gen as [|[w i] gen IH]; intros now; cbn; intros H.
  - destruct (N.ltb_spec (now + fin) deadline); [reflexivity | lia].
  - destruct (N.ltb_spec (now + w) deadline); [|lia].
    rewrite IH by lia. reflexivity.
Qed.

Lemma image_process_frame_trigger P self text d :
  image_process_frame P self (StoryImageFrame text) d =
    fst (async_for_push 7 0 (produced (_fal_service self (P text)))
           (finish (_fal_service self (P text)))).
Proof.
  unfold image_process_frame. cbn [isinstance_StoryImageFrame].
  destruct (async_for_push 7 0 _ _) as [o []]; reflexivity.
Qed.

(** C6: for an image frame, with the stream the service yields for the
    formatted prompt: the frames pushed are those that arrive before 7 time
    units have passed since the call, in the order produced; they are a
    prefix of the stream and nothing else is pushed (no error frame, no
    second attempt); a stream that ends before the bound is pushed whole;
    a first item that takes 7 units or more leaves nothing pushed; and the
    frames that follow in the queue are processed as usual. *)
Theorem image_stage_bounded_wait
  (IMAGE_GEN_PROMPT : str -> str) (self : StoryImageProcessor)
  (text : str) (d : FrameDirection) :
  image_process_frame IMAGE_GEN_PROMPT self (StoryImageFrame text) d =
    map snd (filter (fun ti => (fst ti <? 7)%N)
               (arrivals 0 (produced (_fal_service self (IMAGE_GEN_PROMPT text)))))
  /\
  (exists k,
     image_process_frame IMAGE_GEN_PROMPT self (StoryImageFrame text) d =
       firstn k (map snd (produced (_fal_service self (IMAGE_GEN_PROMPT text)))))
  /\
  ((end_time (_fal_service self (IMAGE_GEN_PROMPT text)) < 7)%N ->
   image_process_frame IMAGE_GEN_PROMPT self (StoryImageFrame text) d =
     map snd (produced (_fal_service self (IMAGE_GEN_PROMPT text))))
  /\
  (forall wait i rest,
     produced (_fal_service self (IMAGE_GEN_PROMPT text)) = (wait, i) :: rest ->
     (7 <= wait)%N ->
     image_process_frame IMAGE_GEN_PROMPT self (StoryImageFrame text) d = [])
  /\
  (forall frames,
     image_process_frames IMAGE_GEN_PROMPT self (StoryImageFrame text :: frames) =
       image_process_frame IMAGE_GEN_PROMPT self (StoryImageFrame text) DOWNSTREAM
       ++ image_process_frames IMAGE_GEN_PROMPT self frames).
Proof.
  rewrite image_process_frame_trigger.
  split; [apply async_for_push_arrivals|].
  split; [apply async_for_push_prefix|].
  split; [|split].
  - intros H. unfold end_time in H. rewrite async_for_push_completes; [reflexivity|].
    lia.
  - intros w i rest E Hw. rewrite E. cbn.
    destruct (N.ltb_spec w 7); [lia | reflexivity].
  - reflexivity.
Qed.

(** A service whose first image takes 8 units, and one that yields two
    images after 2 and 3 more units and ends 1 unit later. *)
Lemma image_stage_bounded_wait_witness :
  image_process_frame (fun t => py "a picture of " ++ t)
    {| _fal_service :=
         fun _ => {| produced := [(8%N, OtherFrame 1)]; finish := 0%N |} |}
    (StoryImageFrame (py "fox")) DOWNSTREAM = [] /\
  image_process_frame (fun t => py "a picture of " ++ t)
    {| _fal_service :=
         fun _ => {| produced := [(2%N, OtherFrame 1); (3%N, OtherFrame 2)];
                     finish := 1%N |} |}
    (StoryImageFrame (py "fox")) DOWNSTREAM = [OtherFrame 1; OtherFrame 2].
Proof.
  split.
  - apply (proj1 (proj2 (proj2 (proj2
             (image_stage_bounded_wait (fun t => py "a picture of " ++ t)
                {| _fal_service :=
                     fun _ => {| produced := [(8%N, OtherFrame 1)];
                                 finish := 0%N |} |}
                (py "fox") DOWNSTREAM)))))
      with (wait := 8%N) (i := OtherFrame 1) (rest := []).
    + reflexivity.
    + discriminate.
  - apply (proj1 (proj2 (proj2
             (image_stage_bounded_wait (fun t => py "a picture of " ++ t)
                {| _fal_service :=
                     fun _ => {| produced := [(2%N, OtherFrame 1);
                                              (3%N, OtherFrame 2)];
                                 finish := 1%N |} |}
                (py "fox") DOWNSTREAM)))).
    reflexivity.
Defined.

(** The bound cuts a stream in the middle: the third image would arrive
    at 9 units; the two before it stay pushed, and the text frame behind
    the trigger passes. *)
Example image_stage_cut :
  image_process_frames (fun t => py "a picture of " ++ t)
    {| _fal_service :=
         fun _ => {| produced := [(3%N, OtherFrame 1); (3%N, OtherFrame 2);
                                  (3%N, OtherFrame 3)];
                     finish := 0%N |} |}
    [StoryImageFrame (py "fox"); TextFrame (py "next")] =
  [OtherFrame 1; OtherFrame 2; TextFrame (py "next")].
Proof. reflexivity. Qed.

(** ** Searching a text that is still growing *)

Lemma lazy_dot_gt_app s n later :
  lazy_dot_gt s = Some n -> lazy_dot_gt (s ++ later) = Some n.
Proof.
  revert n. induction s as [|c s IH]; intros n; simpl; [discriminate|].
  destruct (c =? c_gt)%N; [trivial|]. destruct (c =? c_nl)%N; [trivial|].
  destruct (lazy_dot_gt s) as [k|]; [|discriminate].
  intros H. now rewrite (IH k eq_refl).
Qed.

Lemma lazy_dot_gt_app_None s later :
  lazy_dot_gt s = None -> In c_gt s -> lazy_dot_gt (s ++ later) = None.
Proof.
  induction s as [|c s IH]; simpl; [intros _ []|].
  destruct (N.eqb_spec c c_gt) as [->|Hc]; [discriminate|].
  destruct (c =? c_nl)%N; [trivial|].
  destruct (lazy_dot_gt s) as [k|]; [discriminate|].
  intros _ [H|H]; [congruence|]. now rewrite IH.
Qed.

Lemma search_image_has_gt s m : search_image s = Some m -> In c_gt s.
Proof.
  intros H. destruct (search_image_Some _ _ H) as [b [p [a [[[-> _] _] _]]]].
  apply in_or_app. right. right. apply in_or_app. right. now left.
Qed.

(** The leftmost tag stays the leftmost tag when more text arrives. *)
Lemma search_image_app s m later :
  search_image s = Some m -> search_image (s ++ later) = Some m.
Proof.
  revert m. induction s as [|c s IH]; intros m; [discriminate|].
  cbn [app search_image image_match_here].
  destruct (c =? c_lt)%N.
  - destruct (lazy_dot_gt s) as [n|] eqn:E.
    + rewrite (lazy_dot_gt_app _ _ later E). trivial.
    + cbn [option_map]. destruct (search_image s) as [m1|] eqn:Es; [|discriminate].
      rewrite (lazy_dot_gt_app_None _ later E (search_image_has_gt _ _ Es)).
      cbn [option_map]. now rewrite (IH m1 eq_refl).
  - destruct (search_image s) as [m1|]; [|discriminate].
    now rewrite (IH m1 eq_refl).
Qed.

Lemma match_here_app p s later :
  match_here p s = true -> match_here p (s ++ later) = true.
Proof.
  revert s. induction p as [|k p IH]; intros [|c s]; simpl; try easy.
  rewrite !andb_true_iff. intros [H1 H2]. auto.
Qed.

Lemma match_here_app_false p s later :
  match_here p s = false -> length p <= length s ->
  match_here p (s ++ later) = false.
Proof.
  revert s. induction p as [|k p IH]; intros [|c s]; simpl; try easy; try lia.
  rewrite !andb_false_iff. intros [H|H] Hl; [now left|]. right. apply IH; [easy|lia].
Qed.

Lemma re_search_bound p s m :
  re_search p s = Some m ->
  m_end m = m_start m + length p /\ m_end m <= length s.
Proof.
  intros H. destruct (re_search_Some _ _ _ H) as [b [x [a [[-> [Hm _]] [H1 H2]]]]].
  rewrite !length_app, (matches_length _ _ Hm). lia.
Qed.

(** The leftmost match stays the leftmost match when more text arrives. *)
Lemma re_search_app p s m later :
  re_search p s = Some m -> re_search p (s ++ later) = Some m.
Proof.
  revert m. induction s as [|c s IH]; intros m.
  - simpl. destruct p; [|discriminate]. intros H. injection H as <-.
    destruct later; reflexivity.
  - cbn [app re_search]. destruct (match_here p (c :: s)) eqn:Eh.
    + change (c :: s ++ later) with ((c :: s) ++ later).
      now rewrite (match_here_app _ _ later Eh).
    + destruct (re_search p s) as [m1|] eqn:Es; [|discriminate].
      change (c :: s ++ later) with ((c :: s) ++ later).
      rewrite (match_here_app_false _ _ later Eh).
      * now rewrite (IH m1 eq_refl).
      * destruct (re_search_bound _ _ _ Es). simpl. lia.
Qed.

(** A match that appears only with the later text ends in the later text. *)
Lemma re_search_app_None p s m later :
  re_search p s = None -> re_search p (s ++ later) = Some m ->
  length s < m_start m + length p.
Proof.
  revert m. induction s as [|c s IH]; intros m.
  - simpl. destruct p; [discriminate|]. simpl. lia.
  - cbn [app re_search]. destruct (match_here p (c :: s)) eqn:Eh; [discriminate|].
    destruct (re_search p s) as [|] eqn:Es; [discriminate|]. intros _.
    change (c :: s ++ later) with ((c :: s) ++ later).
    destruct (match_here p ((c :: s) ++ later)) eqn:Eh'.
    + intros H. injection H as <-. cbn [m_start].
      destruct (Nat.le_gt_cases (length p) (length (c :: s))) as [Hle|Hgt]; [|lia].
      rewrite (match_here_app_false _ _ later Eh Hle) in Eh'. discriminate.
    + destruct (re_search p (s ++ later)) as [m1|] eqn:Es'; [|discriminate].
      intros H. injection H as <-. specialize (IH m1 eq_refl eq_refl).
      simpl. lia.
Qed.

Lemma matches_class p m c :
  matches p m -> In c m -> exists k, In k p /\ k c = true.
Proof.
  induction 1 as [|k d p m Hk _ IH]; intros Hin; [destruct Hin|].
  destruct Hin as [->|Hin].
  - exists k. split; [now left | assumption].
  - destruct (IH Hin) as [k' [H1 H2]]. exists k'. split; [now right | assumption].
Qed.

Lemma break_re_no_lt m : matches break_re m -> ~ In c_lt m.
Proof.
  intros Hm Hin. destruct (matches_class _ _ _ Hm Hin) as [k [Hk Hc]].
  unfold break_re in Hk. simpl in Hk.
  repeat (destruct Hk as [<-|Hk]; [discriminate Hc|]). exact Hk.
Qed.

(** A marker that is completed only by later text starts after every tag
    the buffer holds already. *)
Lemma image_before_late_marker s later im bm :
  search_image s = Some im -> re_search break_re s = None ->
  re_search break_re (s ++ later) = Some bm ->
  m_start im < m_start bm.
Proof.
  intros Ei En Eb.
  pose proof (re_search_app_None _ _ _ _ En Eb) as Hlate.
  rewrite length_break_re in Hlate.
  destruct (search_image_Some _ _ Ei) as [before [p [after [[[Hs _] _] [Hst _]]]]].
  destruct (re_search_Some _ _ _ Eb) as [b [m [a [[Hs' [Hm _]] [Hst' _]]]]].
  destruct (Nat.lt_ge_cases (m_start im) (m_start bm)) as [|Hge]; [assumption|].
  exfalso. apply (break_re_no_lt _ Hm).
  assert (Hn : nth_error (s ++ later) (length before) = Some c_lt).
  { rewrite Hs, <- app_assoc, nth_error_app2, Nat.sub_diag by lia. reflexivity. }
  assert (Hlen : length before < length s).
  { rewrite Hs, length_app. simpl. lia. }
  rewrite Hs', nth_error_app2 in Hn by lia.
  rewrite nth_error_app1 in Hn
    by (rewrite (matches_length _ _ Hm), length_break_re; lia).
  exact (nth_error_In _ _ Hn).
Qed.

Lemma str_eqb_eq a b : str_eqb a b = true -> a = b.
Proof.
  revert b. induction a as [|c a IH]; intros [|d b]; simpl; try easy.
  rewrite andb_true_iff. intros [H1 H2].
  apply N.eqb_eq in H1. f_equal; auto.
Qed.

Lemma firstn_app_within {A} n (l later : list A) :
  n <= length l -> firstn n (l ++ later) = firstn n l.
Proof.
  intros H. rewrite firstn_app. replace (n - length l) with 0 by lia.
  simpl. apply app_nil_r.
Qed.

Lemma skipn_app_within {A} n (l later : list A) :
  n <= length l -> skipn n (l ++ later) = skipn n l ++ later.
Proof.
  intros H. rewrite skipn_app. replace (n - length l) with 0 by lia. reflexivity.
Qed.

(** ** One iteration on a buffer that is still growing *)

Lemma image_arm_app self im later :
  m_start im < m_end im -> m_end im <= length (_text self) ->
  image_arm (set_text self (_text self ++ later)) im =
    ImageArm
      (set_text self
         ((slice_to (m_start im) (_text self)
           ++ slice_from (m_end im) (_text self)) ++ later))
      [StoryImageFrame (group1 (_text self) im)].
Proof.
  intros H1 H2. unfold image_arm, set_text, group1, slice, slice_to, slice_from.
  cbn [_text _story].
  rewrite firstn_app_within, (skipn_app_within (m_end im)) by lia.
  rewrite (skipn_app_within (S (m_start im))) by lia.
  rewrite firstn_app_within by (rewrite length_skipn; lia).
  now rewrite <- app_assoc.
Qed.

Lemma break_arm_never_image self self' pushed :
  break_arm self <> ImageArm self' pushed.
Proof.
  unfold break_arm. destruct (2 <? _); discriminate.
Qed.


(** An image step does the same when later text is already in the buffer. *)
Lemma image_step_append self self' pushed later :
  loop_body self = ImageArm self' pushed ->
  loop_body (set_text self (_text self ++ later)) =
    ImageArm (set_text self' (_text self' ++ later)) pushed.
Proof.
  unfold loop_body at 1.
  destruct (search_image (_text self)) as [im|] eqn:Ei.
  2:{ destruct (re_search break_re (_text self));
        intros H; [now apply break_arm_never_image in H | discriminate]. }
  assert (Himg : pos_lt (pos_of (Some im))
                   (pos_of (re_search break_re (_text self))) = true ->
                 image_arm self im = ImageArm self' pushed ->
                 loop_body (set_text self (_text self ++ later)) =
                   ImageArm (set_text self' (_text self' ++ later)) pushed).
  { intros Hlt Harm. unfold image_arm in Harm. injection Harm as <- <-.
    destruct (search_image_Some _ _ Ei) as [b [p [a [[[Hs _] _] [H1 H2]]]]].
    assert (Hend : m_end im <= length (_text self)).
    { rewrite Hs, length_app. simpl. rewrite length_app. simpl. lia. }
    unfold loop_body. cbn [set_text _text].
    rewrite (search_image_app _ _ later Ei).
    assert (Hlt' : pos_lt (pos_of (Some im))
                     (pos_of (re_search break_re (_text self ++ later))) = true).
    { destruct (re_search break_re (_text self)) as [bm|] eqn:Eb.
      - now rewrite (re_search_app _ _ _ later Eb).
      - destruct (re_search break_re (_text self ++ later)) as [bm|] eqn:Eb';
          [|reflexivity].
        cbn. apply Nat.ltb_lt. eapply image_before_late_marker; eauto. }
    destruct (re_search break_re (_text self ++ later)); rewrite Hlt';
      apply (image_arm_app self im later); lia. }
  destruct (re_search break_re (_text self)) as [bm|] eqn:Eb.
  - destruct (pos_lt (pos_of (Some im)) (pos_of (Some bm))) eqn:Hlt.
    + now apply Himg.
    + intros H. now apply break_arm_never_image in H.
  - now apply Himg.
Qed.

(** ** Whitespace at the ends of a text *)

Lemma lstrip_pad_left ws s :
  forallb isspace ws = true -> lstrip (ws ++ s) = lstrip s.
Proof.
  induction ws as [|c ws IH]; simpl; [reflexivity|].
  rewrite andb_true_iff. intros [Hc Hws]. rewrite Hc. auto.
Qed.

Lemma lstrip_all_space ws : forallb isspace ws = true -> lstrip ws = [].
Proof.
  intros H. rewrite <- (app_nil_r ws). now rewrite lstrip_pad_left.
Qed.

Lemma lstrip_pad_right s ws :
  forallb isspace ws = true ->
  lstrip (s ++ ws) = match lstrip s with [] => [] | _ :: _ => lstrip s ++ ws end.
Proof.
  intros Hws. induction s as [|c s IH]; simpl.
  - now apply lstrip_all_space.
  - destruct (isspace c); [exact IH | reflexivity].
Qed.

Lemma rstrip_pad_right s ws :
  forallb isspace ws = true -> rstrip (s ++ ws) = rstrip s.
Proof.
  intros Hws. unfold rstrip. rewrite rev_app_distr, lstrip_pad_left; [reflexivity|].
  rewrite forallb_forall in *. intros x Hx. apply Hws. now apply in_rev.
Qed.

Lemma strip_pad_left ws s : forallb isspace ws = true -> strip (ws ++ s) = strip s.
Proof. intros H. unfold strip. now rewrite lstrip_pad_left. Qed.

Lemma strip_pad_right s ws : forallb isspace ws = true -> strip (s ++ ws) = strip s.
Proof.
  intros H. unfold strip. rewrite (lstrip_pad_right _ _ H).
  destruct (lstrip s); [reflexivity|]. now apply rstrip_pad_right.
Qed.

Lemma strip_padded z w : padded z w -> strip z = strip w.
Proof.
  intros [l [r [-> [Hl Hr]]]].
  now rewrite strip_pad_left, strip_pad_right.
Qed.

Lemma padded_refl w : padded w w.
Proof. exists [], []. rewrite app_nil_r. auto. Qed.

Lemma padded_strip s : padded s (strip s).
Proof. destruct (strip_split s) as [l [r H]]. exists l, r. exact H. Qed.

Lemma padded_trans a b c : padded a b -> padded b c -> padded a c.
Proof.
  intros [l [r [-> [Hl Hr]]]] [l' [r' [-> [Hl' Hr']]]].
  exists (l ++ l'), (r' ++ r). rewrite !forallb_app, Hl, Hl', Hr, Hr'.
  split; [|auto]. now rewrite <- !app_assoc.
Qed.

Lemma replace_nl_space_isspace ws :
  forallb isspace ws = true -> forallb isspace (replace_nl_space ws) = true.
Proof.
  unfold replace_nl_space. induction ws as [|c ws IH]; simpl; [reflexivity|].
  rewrite !andb_true_iff. intros [Hc Hws]. split; [|auto].
  destruct (c =? c_nl)%N; [reflexivity | assumption].
Qed.

Lemma page_of_pad_left ws before :
  forallb isspace ws = true -> page_of (ws ++ before) = page_of before.
Proof.
  intros H. unfold page_of, replace_nl_space. rewrite map_app.
  apply strip_pad_left. now apply replace_nl_space_isspace.
Qed.

(** A text with no whitespace at its ends that occurs in a padded text
    occurs in the text that was padded. *)
Lemma occurrence_in_padding (l w r b m a : str) c m0 m1 z :
  l ++ w ++ r = b ++ m ++ a ->
  forallb isspace l = true -> forallb isspace r = true ->
  m = c :: m0 -> isspace c = false ->
  m = m1 ++ [z] -> isspace z = false ->
  exists b' a', b = l ++ b' /\ a = a' ++ r /\ w = b' ++ m ++ a'.
Proof.
  intros H Hl Hr Hhd Hc Hlast Hz.
  assert (Hb : exists b', b = l ++ b' /\ w ++ r = b' ++ m ++ a).
  { apply app_eq_app in H. destruct H as [x [[H1 H2]|[H1 H2]]].
    - destruct x as [|d x].
      + exists []. rewrite app_nil_r in *. simpl in *. split; congruence.
      + exfalso. rewrite Hhd in H2. simpl in H2. injection H2 as <- _.
        rewrite H1, forallb_app in Hl. simpl in Hl. rewrite Hc in Hl.
        rewrite andb_false_r in Hl. discriminate.
    - exists x. auto. }
  destruct Hb as [b' [-> H']]. exists b'.
  rewrite app_assoc in H'. apply app_eq_app in H'.
  destruct H' as [y [[H1 H2]|[H1 H2]]].
  - exists y. rewrite H1, <- app_assoc. auto.
  - destruct y as [|d y].
    + exists []. rewrite !app_nil_r in *. simpl in H2. subst r. auto.
    + exfalso. destruct (exists_last (l := d :: y)) as [y' [e Hy]]; [discriminate|].
      rewrite Hy, Hlast, !app_assoc in H1. apply app_inj_tail in H1.
      destruct H1 as [_ <-]. rewrite H2, Hy, !forallb_app in Hr. simpl in Hr.
      rewrite Hz in Hr. simpl in Hr. rewrite andb_false_r in Hr. discriminate.
Qed.

(** ** Searching a padded text *)

Lemma tag_at_pad l w r b p a :
  tag_at w b p a -> tag_at (l ++ w ++ r) (l ++ b) p (a ++ r).
Proof.
  intros [-> H]. split; [|exact H].
  rewrite <- !app_assoc. simpl. rewrite <- !app_assoc. reflexivity.
Qed.

Lemma tag_in_padding l w r b p a :
  forallb isspace l = true -> forallb isspace r = true ->
  tag_at (l ++ w ++ r) b p a ->
  exists b' a', b = l ++ b' /\ a = a' ++ r /\ tag_at w b' p a'.
Proof.
  intros Hl Hr [Hs Hp].
  assert (Hs' : l ++ w ++ r = b ++ (c_lt :: p ++ [c_gt]) ++ a).
  { rewrite Hs. simpl. now rewrite <- app_assoc. }
  destruct (occurrence_in_padding _ _ _ _ _ _ c_lt (p ++ [c_gt]) (c_lt :: p) c_gt
              Hs' Hl Hr eq_refl eq_refl eq_refl eq_refl)
    as [b' [a' [Hb [Ha Hw]]]].
  exists b', a'. split; [assumption|]. split; [assumption|].
  split; [|exact Hp]. rewrite Hw. simpl. now rewrite <- app_assoc.
Qed.

Lemma first_tag_pad l w r b p a :
  forallb isspace l = true -> forallb isspace r = true ->
  first_tag w b p a -> first_tag (l ++ w ++ r) (l ++ b) p (a ++ r).
Proof.
  intros Hl Hr [Ht Hfirst]. split; [now apply tag_at_pad|].
  intros b' p' a' Ht'.
  destruct (tag_in_padding _ _ _ _ _ _ Hl Hr Ht') as [b2 [a2 [-> [_ Hw]]]].
  rewrite !length_app. specialize (Hfirst _ _ _ Hw). lia.
Qed.

Lemma search_image_pad_None l w r :
  forallb isspace l = true -> forallb isspace r = true ->
  search_image w = None -> search_image (l ++ w ++ r) = None.
Proof.
  intros Hl Hr Hw. destruct (search_image (l ++ w ++ r)) as [m|] eqn:E; [|reflexivity].
  exfalso. destruct (search_image_Some _ _ E) as [b [p [a [[Ht _] _]]]].
  destruct (tag_in_padding _ _ _ _ _ _ Hl Hr Ht) as [b' [a' [_ [_ Hw']]]].
  exact (search_image_None _ Hw _ _ _ Hw').
Qed.

(** A marker, in any casing, starts with [[] and ends with []]. *)
Lemma marker_ends m :
  matches break_re_ignorecase m ->
  exists c m0 m1 z,
    m = c :: m0 /\ isspace c = false /\ m = m1 ++ [z] /\ isspace z = false.
Proof.
  intros H. pose proof (matches_length _ _ H) as Hlen.
  destruct m as [|c1 [|c2 [|c3 [|c4 [|c5 [|c6 [|c7 [|c8 m]]]]]]]]; try discriminate.
  unfold matches, break_re_ignorecase in H.
  repeat match goal with
         | H : Forall2 _ (_ :: _) (_ :: _) |- _ => inversion H; subst; clear H
         end.
  exists c1, [c2; c3; c4; c5; c6; c7], [c1; c2; c3; c4; c5; c6], c7.
  repeat split.
  - match goal with H : lit "[" c1 = true |- _ =>
      unfold lit in H; apply N.eqb_eq in H; now rewrite H end.
  - match goal with H : lit "]" c7 = true |- _ =>
      unfold lit in H; apply N.eqb_eq in H; now rewrite H end.
Qed.

Section MarkerPatterns.

(** A pattern for the marker: [break_re] or [break_re_ignorecase]. *)
Variable p : pattern.
Hypothesis p_marker : forall m, matches p m -> matches break_re_ignorecase m.

Lemma marker_in_padding l w r b m a :
  forallb isspace l = true -> forallb isspace r = true ->
  l ++ w ++ r = b ++ m ++ a -> matches p m ->
  exists b' a', b = l ++ b' /\ a = a' ++ r /\ w = b' ++ m ++ a'.
Proof.
  intros Hl Hr Hs Hm.
  destruct (marker_ends _ (p_marker _ Hm)) as [c [m0 [m1 [z [H1 [H2 [H3 H4]]]]]]].
  exact (occurrence_in_padding _ _ _ _ _ _ _ _ _ _ Hs Hl Hr H1 H2 H3 H4).
Qed.

Lemma first_match_pad l w r b m a :
  forallb isspace l = true -> forallb isspace r = true ->
  first_match p w b m a -> first_match p (l ++ w ++ r) (l ++ b) m (a ++ r).
Proof.
  intros Hl Hr [-> [Hm Hfirst]]. split; [now rewrite <- !app_assoc|].
  split; [assumption|]. intros b' m' a' Hs Hm'.
  destruct (marker_in_padding _ _ _ _ _ _ Hl Hr Hs Hm') as [b2 [a2 [-> [_ Hw]]]].
  rewrite !length_app. specialize (Hfirst _ _ _ Hw Hm'). lia.
Qed.

Lemma re_search_pad_None l w r :
  forallb isspace l = true -> forallb isspace r = true ->
  re_search p w = None -> re_search p (l ++ w ++ r) = None.
Proof.
  intros Hl Hr Hw. destruct (re_search p (l ++ w ++ r)) as [mm|] eqn:E; [|reflexivity].
  exfalso. destruct (re_search_Some _ _ _ E) as [b [m [a [[Hs [Hm _]] _]]]].
  destruct (marker_in_padding _ _ _ _ _ _ Hl Hr Hs Hm) as [b' [a' [_ [_ Hw']]]].
  exact (re_search_None _ _ Hw _ _ _ Hw' Hm).
Qed.

End MarkerPatterns.

(** ** The loop on a padded buffer *)

(** Whitespace before and after the buffer changes nothing to what an
    iteration pushes; an image step keeps the padding, a break step removes
    it. *)
Lemma loop_body_padded Z W :
  same_upto_padding Z W ->
  match loop_body W with
  | Stop => loop_body Z = Stop
  | ImageArm W' pushed =>
      exists Z', loop_body Z = ImageArm Z' pushed /\ same_upto_padding Z' W'
  | BreakArm W' pushed =>
      exists Z', loop_body Z = BreakArm Z' pushed /\ same_upto_padding Z' W'
  end.
Proof.
  intros [[l [r [Hz [Hl Hr]]]] Hst].
  destruct (loop_body_cases W) as
    [[Ei [Eb E]] | [[b [p [a [Hf [Hlt E]]]]] | [bm [b [m [a [Eb [Him [Hf [_ E]]]]]]]]]];
    rewrite E.
  - unfold loop_body. rewrite Hz.
    rewrite (search_image_pad_None _ _ _ Hl Hr Ei).
    now rewrite (re_search_pad_None _ break_re_ignorecase_wider _ _ _ Hl Hr Eb).
  - exists (set_text Z ((l ++ b) ++ (a ++ r))). split.
    + apply loop_body_first_tag.
      * rewrite Hz. now apply first_tag_pad.
      * intros b2 m2 a2 Hs Hm. rewrite Hz in Hs.
        destruct (marker_in_padding _ break_re_ignorecase_wider
                    _ _ _ _ _ _ Hl Hr Hs Hm) as [b2' [a2' [-> [_ Hw]]]].
        rewrite !length_app.
        destruct (re_search break_re (_text W)) as [bm|] eqn:Eb.
        -- specialize (Hlt bm eq_refl).
           destruct (re_search_Some _ _ _ Eb) as [b0 [m0 [a0 [[_ [_ Hfirst]] [Hst0 _]]]]].
           specialize (Hfirst _ _ _ Hw Hm). lia.
        -- exfalso. exact (re_search_None _ _ Eb _ _ _ Hw Hm).
    + split; [|exact Hst]. cbn [set_text _text].
      exists l, r. rewrite <- !app_assoc. auto.
  - rewrite (break_arm_first_match _ _ _ _ Hf).
    destruct (re_search_Some _ _ _ Eb) as [b0 [m0 [a0 [Hf0 [Hst0 _]]]]].
    assert (HZ : loop_body Z = break_arm Z).
    { apply (loop_body_first_marker Z (l ++ b0) m0 (a0 ++ r)).
      - rewrite Hz.
        now apply (first_match_pad _ break_re_ignorecase_wider).
      - intros bt q at' Ht. rewrite Hz in Ht.
        destruct (tag_in_padding _ _ _ _ _ _ Hl Hr Ht) as [bt' [a' [-> [_ Hw]]]].
        destruct (search_image_tag _ _ _ _ Hw) as [im [Ei Hle]].
        specialize (Him _ Ei). rewrite !length_app. lia. }
    assert (HfZ : first_match break_re_ignorecase (_text Z) (l ++ b) m (a ++ r)).
    { rewrite Hz. now apply (first_match_pad _ (fun m H => H)). }
    rewrite HZ, (break_arm_first_match _ _ _ _ HfZ).
    rewrite (strip_pad_right _ _ Hr), (page_of_pad_left _ _ Hl), Hst.
    eexists. split; [reflexivity|]. split; [apply padded_refl | reflexivity].
Qed.

Lemma runs_padded W final pushed :
  runs W final pushed ->
  forall Z, same_upto_padding Z W ->
  exists final', runs Z final' pushed /\ same_upto_padding final' final.
Proof.
  induction 1 as [s E | s s' o f o' E _ IH | s s' o f o' E _ IH]; intros Z HZ;
    pose proof (loop_body_padded _ _ HZ) as Hstep; rewrite E in Hstep.
  - exists Z. split; [now constructor | assumption].
  - destruct Hstep as [Z' [EZ HZ']]. destruct (IH _ HZ') as [fz [Hr Hf]].
    exists fz. split; [eapply runs_image; eauto | assumption].
  - destruct Hstep as [Z' [EZ HZ']]. destruct (IH _ HZ') as [fz [Hr Hf]].
    exists fz. split; [eapply runs_break; eauto | assumption].
Qed.

Lemma process_text_content_padded Z W :
  same_upto_padding Z W ->
  snd (process_text_content Z) = snd (process_text_content W) /\
  same_upto_padding (fst (process_text_content Z)) (fst (process_text_content W)).
Proof.
  intros H.
  destruct (runs_padded _ _ _ (process_text_content_runs W) _ H) as [fz [Hr Hf]].
  rewrite (runs_process_text_content _ _ _ Hr). auto.
Qed.

Lemma same_upto_padding_trans A B C :
  same_upto_padding A B -> same_upto_padding B C -> same_upto_padding A C.
Proof.
  intros [H1 H2] [H3 H4]. split; [eapply padded_trans; eauto | congruence].
Qed.

Lemma same_upto_padding_refl A : same_upto_padding A A.
Proof. split; [apply padded_refl | reflexivity]. Qed.

(** ** A break step on a buffer that is still growing *)

Lemma break_arm_app self later before m after :
  first_match break_re_ignorecase (_text self) before m after ->
  break_arm (set_text self (_text self ++ later)) =
    BreakArm
      {| _text := strip (after ++ later);
         _story := if 2 <? length (page_of before)
                   then _story self ++ [page_of before] else _story self |}
      (if 2 <? length (page_of before)
       then [StoryPageFrame (page_of before);
             DailyTransportMessageFrame CUE_ASSISTANT_TURN]
       else []).
Proof.
  intros Hf. unfold break_arm, re_split1. cbn [set_text _text _story].
  rewrite (re_search_app _ _ _ later (re_search_first _ _ _ _ _ Hf)).
  cbn [m_start m_end nth length].
  destruct Hf as [Hs [Hm _]]. rewrite Hs.
  unfold slice_to, slice_from.
  rewrite <- !app_assoc, firstn_length_app.
  replace (length before + length break_re_ignorecase)
    with (length (before ++ m))
    by (rewrite length_app, (matches_length _ _ Hm); reflexivity).
  rewrite (app_assoc before m), skipn_length_app. fold (page_of before).
  replace (1 <? 2) with true by reflexivity.
  destruct (2 <? length (page_of before)); reflexivity.
Qed.

(** A break step that is safe for the later text does the same when that
    text is already in the buffer, up to whitespace at the ends of the
    buffer it leaves. *)
Lemma break_step_append self self' pushed later :
  loop_body self = BreakArm self' pushed ->
  break_safe self later = true ->
  exists Q,
    loop_body (set_text self (_text self ++ later)) = BreakArm Q pushed /\
    same_upto_padding (set_text self' (_text self' ++ later)) Q.
Proof.
  intros Hstep Hsafe. unfold break_safe in Hsafe.
  apply andb_true_iff in Hsafe. destruct Hsafe as [Himg Hstrip].
  apply negb_true_iff in Himg.
  destruct (loop_body_cases self) as
    [[_ [_ E]] | [[b [p [a [_ [_ E]]]]] | [bm [b [m [a [Eb [_ [Hf [_ E]]]]]]]]]];
    rewrite E in Hstep; try discriminate.
  rewrite Eb in Himg.
  rewrite (re_search_first _ _ _ _ _ Hf) in Hstrip. cbn [m_end] in Hstrip.
  assert (Ha : slice_from (length b + length break_re_ignorecase) (_text self) = a).
  { destruct Hf as [Hs [Hm _]]. rewrite Hs. unfold slice_from.
    replace (length b + length break_re_ignorecase) with (length (b ++ m))
      by (rewrite length_app, (matches_length _ _ Hm); reflexivity).
    now rewrite app_assoc, skipn_length_app. }
  rewrite Ha in Hstrip. apply str_eqb_eq in Hstrip.
  rewrite (break_arm_first_match _ _ _ _ Hf) in Hstep. injection Hstep as <- <-.
  eexists. split.
  - rewrite <- (break_arm_app self later _ _ _ Hf).
    unfold loop_body. cbn [set_text _text].
    rewrite (re_search_app _ _ _ later Eb).
    destruct (search_image (_text self ++ later)) as [im|]; [|reflexivity].
    now rewrite Himg.
  - split; [|reflexivity]. cbn [set_text _text]. rewrite Hstrip.
    apply padded_strip.
Qed.

(** The loop on the buffer with the later text appended first does what
    the loop on the buffer does, then goes on from where that one stopped,
    the later text appended there. *)
Lemma while_true_append fuel self later final pushed :
  while_true fuel self = Some (final, pushed) ->
  safe_run fuel self later = true ->
  forall W,
    same_upto_padding (set_text self (_text self ++ later)) W ->
    snd (process_text_content W) =
      pushed ++ snd (process_text_content (set_text final (_text final ++ later)))
    /\
    same_upto_padding
      (fst (process_text_content (set_text final (_text final ++ later))))
      (fst (process_text_content W)).
Proof.
  revert self final pushed.
  induction fuel as [|fuel IH]; intros self final pushed; [discriminate|].
  cbn [while_true safe_run]. destruct (loop_body self) as [|s' o|s' o] eqn:E.
  - intros H _ W HW. injection H as <- <-.
    destruct (process_text_content_padded _ _ HW) as [H1 H2]. auto.
  - destruct (while_true fuel s') as [[f o']|] eqn:Ew; [|discriminate].
    intros H Hsafe W HW. injection H as <- <-.
    pose proof (image_step_append _ _ _ later E) as EZ.
    pose proof (loop_body_padded _ _ HW) as Hstep.
    rewrite (process_text_content_step W).
    destruct (loop_body W) as [|W' o2|W' o2].
    + congruence.
    + destruct Hstep as [Z' [EZ' HZ']]. rewrite EZ in EZ'. injection EZ' as <- <-.
      destruct (IH _ _ _ Ew Hsafe W' HZ') as [H1 H2].
      cbn [fst snd]. rewrite H1, app_assoc. auto.
    + destruct Hstep as [Z' [EZ' _]]. congruence.
  - destruct (while_true fuel s') as [[f o']|] eqn:Ew; [|discriminate].
    intros H Hsafe W HW. injection H as <- <-.
    apply andb_true_iff in Hsafe. destruct Hsafe as [Hb Hsafe].
    destruct (break_step_append _ _ _ later E Hb) as [Q [EZ HQ]].
    pose proof (loop_body_padded _ _ HW) as Hstep.
    rewrite (process_text_content_step W).
    destruct (loop_body W) as [|W' o2|W' o2].
    + congruence.
    + destruct Hstep as [Z' [EZ' _]]. congruence.
    + destruct Hstep as [Z' [EZ' HZ']]. rewrite EZ in EZ'. injection EZ' as <- <-.
      destruct (IH _ _ _ Ew Hsafe W' (same_upto_padding_trans _ _ _ HQ HZ'))
        as [H1 H2].
      cbn [fst snd]. rewrite H1, app_assoc. auto.
Qed.

Lemma fragmented_delivery_padded deltas :
  forall self delta W,
    safe_split self (delta :: deltas) = true ->
    same_upto_padding
      (set_text self (_text self ++ concat (delta :: deltas))) W ->
    snd (process_frames self (map TextFrame (delta :: deltas))) =
      snd (process_text_content W) /\
    same_upto_padding
      (fst (process_frames self (map TextFrame (delta :: deltas))))
      (fst (process_text_content W)).
Proof.
  induction deltas as [|delta' deltas IH]; intros self delta W Hsafe HW.
  - cbn in HW |- *. rewrite app_nil_r in HW.
    destruct (process_text_content_padded _ _ HW) as [H1 H2].
    destruct (process_text_content (set_text self (_text self ++ delta)))
      as [s1 o1]. cbn [fst snd] in *. now rewrite app_nil_r.
  - cbn [safe_split] in Hsafe. apply andb_true_iff in Hsafe.
    destruct Hsafe as [Hrun Hrest].
    change (map TextFrame (delta :: delta' :: deltas))
      with (TextFrame delta :: map TextFrame (delta' :: deltas)).
    cbn [process_frames].
    change (process_frame self (TextFrame delta) DOWNSTREAM)
      with (process_text_content (set_text self (_text self ++ delta))).
    pose proof (process_text_content_fuel
                  (set_text self (_text self ++ delta))) as Hw.
    destruct (process_text_content (set_text self (_text self ++ delta)))
      as [s1 o1] eqn:E1.
    cbn [fst] in Hrest.
    assert (HW' : same_upto_padding
                    (set_text (set_text self (_text self ++ delta))
                       (_text (set_text self (_text self ++ delta))
                        ++ concat (delta' :: deltas)))
                    W).
    { cbn [set_text _text _story]. rewrite <- app_assoc. exact HW. }
    destruct (while_true_append _ _ _ _ _ Hw Hrun W HW') as [H1 H2].
    destruct (IH s1 delta' _ Hrest (same_upto_padding_refl _)) as [H3 H4].
    destruct (process_frames s1 (map TextFrame (delta' :: deltas))) as [s2 o2].
    cbn [fst snd] in *. rewrite H1, H3. split; [reflexivity|].
    exact (same_upto_padding_trans _ _ _ H4 H2).
Qed.

(** ** Delivery in several deltas *)

(** C5 as stated fails.  A break step strips what is left in the buffer at
    once, so a space at the end of a delta is lost when the text goes on in
    the next delta; and a marker inside a tag that is still open is taken
    for a page boundary when the delta ends before the closing [>]. *)
Lemma fragmented_delivery_differs :
  concat [py "abc[break]de "; py "f[break]"] = py "abc[break]de f[break]" /\
  snd (process_frames {| _text := []; _story := [] |}
         (map TextFrame [py "abc[break]de "; py "f[break]"])) =
    [StoryPageFrame (py "abc"); DailyTransportMessageFrame CUE_ASSISTANT_TURN;
     StoryPageFrame (py "def"); DailyTransportMessageFrame CUE_ASSISTANT_TURN] /\
  snd (process_frame {| _text := []; _story := [] |}
         (TextFrame (py "abc[break]de f[break]")) DOWNSTREAM) =
    [StoryPageFrame (py "abc"); DailyTransportMessageFrame CUE_ASSISTANT_TURN;
     StoryPageFrame (py "de f"); DailyTransportMessageFrame CUE_ASSISTANT_TURN] /\
  snd (process_frames {| _text := []; _story := [] |}
         (map TextFrame [py "a<b[break]"; py "c>"])) =
    [StoryPageFrame (py "a<b"); DailyTransportMessageFrame CUE_ASSISTANT_TURN] /\
  snd (process_frame {| _text := []; _story := [] |}
         (TextFrame (py "a<b[break]c>")) DOWNSTREAM) =
    [StoryImageFrame (py "b[break]c")].
Proof. repeat split; reflexivity. Qed.

(** C5, as the code has it.  Delivering a text in several deltas pushes the
    same frames as delivering it in one delta, and leaves the same story
    and, up to whitespace at its ends, the same buffer, provided every
    break step taken before the last delta has arrived is safe for the
    deltas still to come: with them appended, no image tag starts before
    the marker, and the text after the marker, stripped at once and
    stripped again with them behind it, is what stripping the two together
    gives (no whitespace is lost that they would have kept inside the
    text).  Image steps need no condition. *)
Theorem fragmented_delivery
  (self : StoryProcessor) (delta : str) (deltas : list str) :
  safe_split self (delta :: deltas) = true ->
  snd (process_frames self (map TextFrame (delta :: deltas))) =
    snd (process_frame self (TextFrame (concat (delta :: deltas))) DOWNSTREAM) /\
  same_upto_padding
    (fst (process_frames self (map TextFrame (delta :: deltas))))
    (fst (process_frame self (TextFrame (concat (delta :: deltas))) DOWNSTREAM)).
Proof.
  intros Hsafe.
  exact (fragmented_delivery_padded deltas self delta _ Hsafe
           (same_upto_padding_refl _)).
Qed.

(** Deltas the way a language model sends them, each word with its space
    in front, the tag and the marker cut in pieces. *)
Lemma fragmented_delivery_witness :
  snd (process_frames {| _text := []; _story := [] |}
         (map TextFrame
            (py "Once" ::
             [py " upon"; py " <a"; py " fox>"; py " a time."; py " [";
              py "Break"; py "]"; py " Then"; py " he ran.[break]"]))) =
    snd (process_frame {| _text := []; _story := [] |}
           (TextFrame
              (concat
                 (py "Once" ::
                  [py " upon"; py " <a"; py " fox>"; py " a time."; py " [";
                   py "Break"; py "]"; py " Then"; py " he ran.[break]"])))
           DOWNSTREAM) /\
  same_upto_padding
    (fst (process_frames {| _text := []; _story := [] |}
            (map TextFrame
               (py "Once" ::
                [py " upon"; py " <a"; py " fox>"; py " a time."; py " [";
                 py "Break"; py "]"; py " Then"; py " he ran.[break]"]))))
    (fst (process_frame {| _text := []; _story := [] |}
            (TextFrame
               (concat
                  (py "Once" ::
                   [py " upon"; py " <a"; py " fox>"; py " a time."; py " [";
                    py "Break"; py "]"; py " Then"; py " he ran.[break]"])))
            DOWNSTREAM)).
Proof.
  apply (fragmented_delivery {| _text := []; _story := [] |}
           (py "Once")
           [py " upon"; py " <a"; py " fox>"; py " a time."; py " [";
            py "Break"; py "]"; py " Then"; py " he ran.[break]"]).
  vm_compute. reflexivity.
Defined.

Example fragmented_delivery_run :
  process_frames {| _text := []; _story := [] |}
    (map TextFrame
       [py "Once"; py " upon"; py " <a"; py " fox>"; py " a time."; py " [";
        py "Break"; py "]"; py " Then"; py " he ran.[break]"]) =
  ({| _text := []; _story := [py "Once upon  a time."; py "Then he ran."] |},
   [StoryImageFrame (py "a fox");
    StoryPageFrame (py "Once upon  a time.");
    DailyTransportMessageFrame CUE_ASSISTANT_TURN;
    StoryPageFrame (py "Then he ran.");
    DailyTransportMessageFrame CUE_ASSISTANT_TURN]).
Proof. reflexivity. Qed.

(** A delta that ends after a marker and a space, the next one going on:
    safe, the frames are the same, and the buffers differ by the space. *)
Example fragmented_delivery_padding :
  safe_split {| _text := []; _story := [] |} [py "abc[break]"; py " de"; py "f "]
    = true /\
  process_frames {| _text := []; _story := [] |}
    (map TextFrame [py "abc[break]"; py " de"; py "f "]) =
  ({| _text := py " def "; _story := [py "abc"] |},
   [StoryPageFrame (py "abc"); DailyTransportMessageFrame CUE_ASSISTANT_TURN]) /\
  process_frame {| _text := []; _story := [] |}
    (TextFrame (py "abc[break] def ")) DOWNSTREAM =
  ({| _text := py "def"; _story := [py "abc"] |},
   [StoryPageFrame (py "abc"); DailyTransportMessageFrame CUE_ASSISTANT_TURN]).
Proof. repeat split; reflexivity. Qed.

(** The two splits of [fragmented_delivery_differs] are not safe. *)
Example unsafe_splits :
  safe_split {| _text := []; _story := [] |}
    [py "abc[break]de "; py "f[break]"] = false /\
  safe_split {| _text := []; _story := [] |} [py "a<b[break]"; py "c>"] = false.
Proof. split; reflexivity. Qed.

(** ** Further properties *)

(** X1: when the extraction loop is left, neither search finds anything in
    the buffer: no image tag on one line and no [[break]] or [[Break]]
    stands in it (a marker in another casing may). *)
Theorem loop_leaves_no_pattern (self : StoryProcessor) :
  search_image (_text (fst (process_text_content self))) = None /\
  re_search break_re (_text (fst (process_text_content self))) = None /\
  (forall b p a, ~ tag_at (_text (fst (process_text_content self))) b p a) /\
  (forall b m a, _text (fst (process_text_content self)) = b ++ m ++ a ->
                 ~ matches break_re m).
Proof.
  pose proof (runs_ends_stopped _ _ _ (process_text_content_runs self)) as Hstop.
  destruct (loop_body_cases (fst (process_text_content self))) as
    [[Ei [Eb _]] | [[b [p [a [_ [_ E]]]]] | [bm [b [m [a [_ [_ [Hf [_ E]]]]]]]]]].
  - repeat split; try assumption.
    + now apply search_image_None.
    + now apply re_search_None.
  - congruence.
  - rewrite E, (break_arm_first_match _ _ _ _ Hf) in Hstop. discriminate.
Qed.

(** When the user stops speaking the stage pushes the "assistant's turn"
    cue and then the talking sound, and touches neither buffer nor
    story. *)
Example user_stopped_speaking (self : StoryProcessor) (d : FrameDirection) :
  process_frame self UserStoppedSpeakingFrame d =
    (self, [DailyTransportMessageFrame CUE_ASSISTANT_TURN;
            OutputAudioRawFrame talking]).
Proof. reflexivity. Qed.

(** ** The story stage between frames *)

Lemma loop_body_stop_text self self' :
  _text self = _text self' -> loop_body self = Stop -> loop_body self' = Stop.
Proof.
  intros Ht. unfold loop_body. rewrite <- Ht.
  destruct (search_image (_text self)) as [im|];
    destruct (re_search break_re (_text self)) as [bm|]; cbn [pos_of pos_lt];
    try (destruct (m_start im <? m_start bm));
    unfold image_arm, break_arm; try destruct (2 <? _); try discriminate.
  reflexivity.
Qed.

Lemma process_frame_settled self frame d :
  loop_body self = Stop -> loop_body (fst (process_frame self frame d)) = Stop.
Proof.
  intros Hs.
  assert (Hloop : forall text,
    loop_body (fst (process_text_content (set_text self (_text self ++ text))))
      = Stop).
  { intros text. exact (runs_ends_stopped _ _ _ (process_text_content_runs _)). }
  destruct frame; cbn [process_frame isinstance_TextFrame fst];
    try apply Hloop; try assumption.
  reflexivity.
Qed.

Lemma process_frames_settled self frames :
  loop_body self = Stop -> loop_body (fst (process_frames self frames)) = Stop.
Proof.
  revert self. induction frames as [|frame frames IH]; intros self Hs; [exact Hs|].
  cbn [process_frames].
  pose proof (process_frame_settled self frame DOWNSTREAM Hs) as H1.
  destruct (process_frame self frame DOWNSTREAM) as [s1 o1]. cbn [fst] in H1.
  specialize (IH s1 H1). destruct (process_frames s1 frames) as [s2 o2].
  exact IH.
Qed.

(** X2: between frames the buffer of a processor that started empty is
    always settled: neither search finds anything in it, whatever frames
    came before; and a text frame with the empty text then pushes nothing
    and leaves buffer and story as they are. *)
Theorem settled_between_frames
  (story : list str) (frames : list Frame) (d : FrameDirection) :
  loop_body (fst (process_frames (init story) frames)) = Stop /\
  search_image (_text (fst (process_frames (init story) frames))) = None /\
  re_search break_re (_text (fst (process_frames (init story) frames))) = None /\
  process_frame (fst (process_frames (init story) frames)) (TextFrame []) d =
    (fst (process_frames (init story) frames), []).
Proof.
  assert (Hs : loop_body (fst (process_frames (init story) frames)) = Stop)
    by (apply process_frames_settled; reflexivity).
  split; [exact Hs|].
  destruct (loop_body_cases (fst (process_frames (init story) frames))) as
    [[Ei [Eb _]] | [[b [p [a [_ [_ E]]]]] | [bm [b [m [a [_ [_ [Hf [_ E]]]]]]]]]].
  - split; [exact Ei|]. split; [exact Eb|].
    cbn [process_frame isinstance_TextFrame]. rewrite app_nil_r.
    destruct (fst (process_frames (init story) frames)) as [t st] eqn:Es.
    cbn [set_text _text _story]. apply runs_process_text_content.
    now constructor.
  - congruence.
  - rewrite E, (break_arm_first_match _ _ _ _ Hf) in Hs. discriminate.
Qed.

(** ** What the loop pushes *)

Lemma loop_output_app a b :
  loop_output a = true -> loop_output b = true -> loop_output (a ++ b) = true.
Proof.
  intros Ha Hb. remember (length a) as n eqn:Hn.
  assert (Hle : length a <= n) by lia. clear Hn. revert a Ha Hle.
  induction n as [|n IH]; intros a Ha Hle.
  - destruct a; [exact Hb | simpl in Hle; lia].
  - destruct a as [|f a]; [exact Hb|].
    destruct f; try discriminate.
    + destruct a as [|g a]; [discriminate|].
      destruct g as [| | | | | | |[|]| |]; try discriminate.
      cbn in Ha |- *. apply IH; [assumption | simpl in Hle; lia].
    + cbn in Ha |- *. apply IH; [assumption | simpl in Hle; lia].
Qed.

Lemma loop_body_output self :
  match loop_body self with
  | Stop => True
  | ImageArm _ pushed | BreakArm _ pushed => loop_output pushed = true
  end.
Proof.
  destruct (loop_body_cases self) as
    [[_ [_ E]] | [[b [p [a [_ [_ E]]]]] | [bm [b [m [a [_ [_ [Hf [_ E]]]]]]]]]];
    rewrite E; [exact I | reflexivity |].
  rewrite (break_arm_first_match _ _ _ _ Hf).
  destruct (2 <? length (page_of b)); reflexivity.
Qed.

Lemma runs_loop_output self final pushed :
  runs self final pushed -> loop_output pushed = true.
Proof.
  induction 1 as [s E | s s' o f o' E _ IH | s s' o f o' E _ IH];
    [reflexivity | |];
    pose proof (loop_body_output s) as H; rewrite E in H;
    now apply loop_output_app.
Qed.

(** X3: what a text delta makes the stage push is a sequence of image
    frames and of page frames, each page frame followed at once by the
    "assistant's turn" cue; no cue comes without its page and nothing else
    is pushed. *)
Theorem text_delta_output
  (self : StoryProcessor) (frame : Frame) (d : FrameDirection) :
  match isinstance_TextFrame frame with
  | Some _ => loop_output (snd (process_frame self frame d)) = true
  | None => True
  end.
Proof.
  assert (Hloop : forall text,
    loop_output
      (snd (process_text_content (set_text self (_text self ++ text)))) = true).
  { intros text. exact (runs_loop_output _ _ _ (process_text_content_runs _)). }
  destruct frame; cbn [isinstance_TextFrame]; try exact I; apply Hloop.
Qed.

Example text_delta_output_run :
  snd (process_frame (init []) (TextFrame (py "One day.[break]<sun>Two[Break]"))
         DOWNSTREAM) =
  [StoryPageFrame (py "One day."); DailyTransportMessageFrame CUE_ASSISTANT_TURN;
   StoryImageFrame (py "sun");
   StoryPageFrame (py "Two"); DailyTransportMessageFrame CUE_ASSISTANT_TURN].
Proof. reflexivity. Qed.

(** ** Image prompts *)

Lemma runs_image_prompts self final pushed p :
  runs self final pushed -> In (StoryImageFrame p) pushed ->
  ~ In c_gt p /\ ~ In c_nl p.
Proof.
  induction 1 as [s E | s s' o f o' E _ IH | s s' o f o' E _ IH]; intros Hin;
    [destruct Hin | |]; apply in_app_or in Hin; destruct Hin as [Hin|Hin]; auto;
    destruct (loop_body_cases s) as
      [[_ [_ E']] | [[b [q [a [[[_ Hq] _] [_ E']]]]] | [bm [b [m [a [_ [_ [Hf [_ E']]]]]]]]]];
    rewrite E' in E; try discriminate.
  - injection E as _ <-. destruct Hin as [Hin|[]]. injection Hin as <-. exact Hq.
  - rewrite (break_arm_first_match _ _ _ _ Hf) in E. discriminate.
  - rewrite (break_arm_first_match _ _ _ _ Hf) in E. injection E as _ <-.
    destruct (2 <? _); [destruct Hin as [Hin|[Hin|[]]]; discriminate | destruct Hin].
Qed.

(** X4: whatever frames reach the stage, the text of every image frame it
    pushes has no [>] in it and no newline (it may be empty, and it may
    hold a [<] or a break marker). *)
Theorem image_prompts_one_line (self : StoryProcessor) (frames : list Frame) :
  Forall (fun frame =>
            match frame with
            | StoryImageFrame p => ~ In c_gt p /\ ~ In c_nl p
            | _ => True
            end)
         (snd (process_frames self frames)).
Proof.
  revert self. induction frames as [|frame frames IH]; intros self; [constructor|].
  cbn [process_frames].
  destruct (process_frame self frame DOWNSTREAM) as [s1 o1] eqn:E1.
  specialize (IH s1). destruct (process_frames s1 frames) as [s2 o2].
  cbn [snd] in *. apply Forall_app. split; [|exact IH].
  assert (Hloop : forall text,
    process_frame self frame DOWNSTREAM =
      process_text_content (set_text self (_text self ++ text)) ->
    Forall (fun frame =>
              match frame with
              | StoryImageFrame p => ~ In c_gt p /\ ~ In c_nl p
              | _ => True
              end) o1).
  { intros text Ep. rewrite E1 in Ep.
    pose proof (process_text_content_runs (set_text self (_text self ++ text))) as Hr.
    rewrite <- Ep in Hr. cbn [fst snd] in Hr.
    apply Forall_forall. intros f Hf. destruct f; try exact I.
    exact (runs_image_prompts _ _ _ _ Hr Hf). }
  destruct frame; try (apply (Hloop text); reflexivity);
    cbn in E1; injection E1 as <- <-; repeat constructor.
Qed.

Example image_prompt_with_marker :
  snd (process_frame (init []) (TextFrame (py "<a<b[break]c>")) DOWNSTREAM) =
  [StoryImageFrame (py "a<b[break]c")].
Proof. reflexivity. Qed.

(** ** Text in, text out *)

Lemma total_text_app a b : total_text (a ++ b) = total_text a + total_text b.
Proof.
  unfold total_text. induction a as [|f a IH]; simpl; [reflexivity|].
  rewrite IH. lia.
Qed.

Lemma length_page_of before : length (page_of before) <= length before.
Proof.
  unfold page_of. etransitivity; [apply length_strip|].
  unfold replace_nl_space. now rewrite length_map.
Qed.

(** An image step takes the two delimiters out of circulation, a break
    step the seven characters of the marker, at least. *)
Lemma loop_body_conserves self :
  match loop_body self with
  | Stop => True
  | ImageArm self' pushed =>
      length (_text self') + total_text pushed + 2 = length (_text self)
  | BreakArm self' pushed =>
      length (_text self') + total_text pushed + 7 <= length (_text self)
  end.
Proof.
  destruct (loop_body_cases self) as
    [[_ [_ E]] | [[b [p [a [[[Hs _] _] [_ E]]]]] | [bm [b [m [a [_ [_ [Hf [_ E]]]]]]]]]];
    rewrite E; [exact I | |].
  - rewrite Hs. cbn. rewrite !length_app. simpl. rewrite length_app. simpl. lia.
  - rewrite (break_arm_first_match _ _ _ _ Hf). cbn [_text].
    destruct Hf as [Hs [Hm _]]. rewrite Hs, !length_app.
    rewrite (matches_length _ _ Hm), length_break_re_ignorecase.
    pose proof (length_strip a). pose proof (length_page_of b).
    destruct (2 <? length (page_of b)); cbn; lia.
Qed.

Lemma runs_conserves self final pushed :
  runs self final pushed ->
  length (_text final) + total_text pushed <= length (_text self).
Proof.
  induction 1 as [s E | s s' o f o' E _ IH | s s' o f o' E _ IH];
    [cbn; lia | |];
    pose proof (loop_body_conserves s) as H; rewrite E in H;
    rewrite total_text_app; lia.
Qed.

Lemma process_frame_conserves self frame d :
  length (_text (fst (process_frame self frame d)))
  + total_text (snd (process_frame self frame d))
  <= length (_text self) + text_length frame.
Proof.
  assert (Hloop : forall text,
    length (_text (fst (process_text_content (set_text self (_text self ++ text)))))
    + total_text (snd (process_text_content (set_text self (_text self ++ text))))
    <= length (_text self) + length text).
  { intros text.
    pose proof (runs_conserves _ _ _ (process_text_content_runs
                                        (set_text self (_text self ++ text)))) as H.
    cbn [set_text _text] in H. rewrite length_app in H. exact H. }
  destruct frame; cbn [process_frame isinstance_TextFrame text_length];
    try apply Hloop; cbn; lia.
Qed.

(** X5: the stage makes up no text.  Over any sequence of frames, the
    characters it pushes in page, image and prompt frames, together with
    those left in the buffer, are no more than those the buffer held
    before plus those the text frames brought. *)
Theorem text_is_conserved (self : StoryProcessor) (frames : list Frame) :
  length (_text (fst (process_frames self frames)))
  + total_text (snd (process_frames self frames))
  <= length (_text self) + total_text frames.
Proof.
  revert self. induction frames as [|frame frames IH]; intros self; [cbn; lia|].
  cbn [process_frames].
  pose proof (process_frame_conserves self frame DOWNSTREAM) as H1.
  destruct (process_frame self frame DOWNSTREAM) as [s1 o1].
  specialize (IH s1). destruct (process_frames s1 frames) as [s2 o2].
  cbn [fst snd] in *. rewrite total_text_app.
  change (total_text (frame :: frames))
    with (text_length frame + total_text frames). lia.
Qed.

(** ** The story is written, never read *)

Lemma loop_body_story_blind s1 s2 :
  _text s1 = _text s2 ->
  match loop_body s1, loop_body s2 with
  | Stop, Stop => True
  | ImageArm a o, ImageArm b o' | BreakArm a o, BreakArm b o' =>
      o = o' /\ _text a = _text b
  | _, _ => False
  end.
Proof.
  intros Ht. unfold loop_body, image_arm, break_arm, set_text. rewrite <- Ht.
  destruct (search_image (_text s1)) as [im|];
    destruct (re_search break_re (_text s1)) as [bm|]; cbn [pos_of pos_lt];
    try (destruct (m_start im <? m_start bm));
    try destruct (2 <? _); cbn [_text]; auto.
Qed.

Lemma while_true_story_blind fuel s1 s2 :
  _text s1 = _text s2 ->
  match while_true fuel s1, while_true fuel s2 with
  | Some (f1, o1), Some (f2, o2) => o1 = o2 /\ _text f1 = _text f2
  | None, None => True
  | _, _ => False
  end.
Proof.
  revert s1 s2. induction fuel as [|fuel IH]; intros s1 s2 Ht; [exact I|].
  cbn [while_true]. pose proof (loop_body_story_blind s1 s2 Ht) as Hstep.
  destruct (loop_body s1) as [|a o|a o]; destruct (loop_body s2) as [|b o'|b o'];
    try contradiction; [auto | |];
    destruct Hstep as [<- Hab]; specialize (IH a b Hab);
    destruct (while_true fuel a) as [[f1 o1]|];
    destruct (while_true fuel b) as [[f2 o2]|]; try contradiction; auto;
    destruct IH as [<- Hf]; auto.
Qed.

Lemma process_text_content_story_blind s1 s2 :
  _text s1 = _text s2 ->
  snd (process_text_content s1) = snd (process_text_content s2) /\
  _text (fst (process_text_content s1)) = _text (fst (process_text_content s2)).
Proof.
  intros Ht. pose proof (process_text_content_fuel s1) as H1.
  pose proof (process_text_content_fuel s2) as H2.
  pose proof (while_true_story_blind (S (length (_text s1))) s1 s2 Ht) as H.
  rewrite H1 in H. rewrite Ht, H2 in H.
  destruct (process_text_content s1), (process_text_content s2). exact H.
Qed.

Lemma process_frames_story_blind frames s1 s2 :
  _text s1 = _text s2 ->
  snd (process_frames s1 frames) = snd (process_frames s2 frames) /\
  _text (fst (process_frames s1 frames)) = _text (fst (process_frames s2 frames)).
Proof.
  revert s1 s2. induction frames as [|frame frames IH]; intros s1 s2 Ht; [auto|].
  cbn [process_frames].
  assert (H1 : snd (process_frame s1 frame DOWNSTREAM) =
                 snd (process_frame s2 frame DOWNSTREAM) /\
               _text (fst (process_frame s1 frame DOWNSTREAM)) =
                 _text (fst (process_frame s2 frame DOWNSTREAM))).
  { destruct frame; cbn [process_frame isinstance_TextFrame];
      try (apply process_text_content_story_blind; cbn; now rewrite Ht);
      cbn; rewrite ?Ht; auto. }
  destruct (process_frame s1 frame DOWNSTREAM) as [a o].
  destruct (process_frame s2 frame DOWNSTREAM) as [b o'].
  cbn [fst snd] in H1. destruct H1 as [<- Hab].
  specialize (IH a b Hab).
  destruct (process_frames a frames), (process_frames b frames).
  cbn [fst snd] in *. destruct IH as [<- ->]. auto.
Qed.

(** X6: the story is written and never read, and the end-of-response
    marker empties the buffer, so a turn starts afresh: what the stage
    pushes for the frames after an end-of-response marker is what a new
    processor pushes for them, whatever came before the marker. *)
Theorem turns_are_independent
  (self : StoryProcessor) (frames frames' : list Frame) :
  snd (process_frames self (frames ++ LLMFullResponseEndFrame :: frames')) =
    snd (process_frames self frames)
    ++ [StoryPromptFrame (_text (fst (process_frames self frames)));
        LLMFullResponseEndFrame;
        DailyTransportMessageFrame CUE_USER_TURN; sounds listening]
    ++ snd (process_frames (init []) frames').
Proof.
  rewrite process_frames_app. cbn [snd]. f_equal.
  destruct (process_frames self frames) as [s1 o1]. cbn [fst process_frames].
  change (process_frame s1 LLMFullResponseEndFrame DOWNSTREAM)
    with (set_text s1 [],
          [StoryPromptFrame (_text s1); LLMFullResponseEndFrame;
           DailyTransportMessageFrame CUE_USER_TURN; sounds listening]).
  destruct (process_frames_story_blind frames' (set_text s1 []) (init []) eq_refl)
    as [H _].
  destruct (process_frames (set_text s1 []) frames') as [s2 o2].
  cbn [snd] in *. now rewrite H.
Qed.

Example turns_are_independent_run :
  snd (process_frames {| _text := py "left over <ta"; _story := [py "Page one"] |}
         [TextFrame (py "g"); LLMFullResponseEndFrame; TextFrame (py "> New.[break]")])
  = [StoryPromptFrame (py "left over <tag"); LLMFullResponseEndFrame;
     DailyTransportMessageFrame CUE_USER_TURN; OutputAudioRawFrame listening;
     StoryPageFrame (py "> New.");
     DailyTransportMessageFrame CUE_ASSISTANT_TURN].
Proof. reflexivity. Qed.

(** ** A tag inside a page *)

Lemma head_not_before (s b rest b' tail' : str) c :
  s = b ++ rest -> s = b' ++ c :: tail' -> ~ In c b -> length b <= length b'.
Proof.
  intros H1 H2 Hc. destruct (Nat.le_gt_cases (length b) (length b')) as [|Hlt];
    [assumption|]. exfalso. apply Hc.
  assert (Hn : nth_error s (length b') = Some c).
  { rewrite H2, nth_error_app2, Nat.sub_diag by lia. reflexivity. }
  rewrite H1, nth_error_app1 in Hn by lia. exact (nth_error_In _ _ Hn).
Qed.

Lemma marker_head m :
  matches break_re_ignorecase m -> exists m0, m = chr "[" :: m0.
Proof.
  intros H. destruct m as [|c m]; [inversion H|]. exists m.
  unfold matches, break_re_ignorecase in H. inversion H; subst.
  match goal with H : lit "[" c = true |- _ =>
    unfold lit in H; apply N.eqb_eq in H; now rewrite H end.
Qed.

Section MarkerAfterPlainText.

Variable p : pattern.
Hypothesis p_marker : forall m, matches p m -> matches break_re_ignorecase m.

(** A marker after a text without [[] is the leftmost one. *)
Lemma first_match_after_plain before m after :
  ~ In (chr "[") before -> matches p m ->
  first_match p (before ++ m ++ after) before m after.
Proof.
  intros Hno Hm. split; [reflexivity|]. split; [assumption|].
  intros b' m' a' Hs Hm'.
  destruct (marker_head _ (p_marker _ Hm')) as [m0 ->].
  exact (head_not_before _ _ _ _ _ _ eq_refl Hs Hno).
Qed.

End MarkerAfterPlainText.

(** X7: a tag inside a page.  When the buffer holds plain text (no [<], no
    [[]), an image tag, plain text again and then [[break]] or [[Break]],
    the loop pushes the image frame with the tag's text first, then the
    page made of the text before and after the tag with the tag cut out
    (if it has more than two characters), and goes on with the stripped
    text after the marker. *)
Theorem tag_then_page (self : StoryProcessor) (pre p mid marker rest : str) :
  _text self = pre ++ c_lt :: p ++ c_gt :: mid ++ marker ++ rest ->
  ~ In c_lt pre -> ~ In c_lt mid ->
  ~ In (chr "[") pre -> ~ In (chr "[") mid ->
  ~ In c_gt p -> ~ In c_nl p ->
  matches break_re marker ->
  process_text_content self =
    (fst (process_text_content
            {| _text := strip rest;
               _story := if 2 <? length (page_of (pre ++ mid))
                         then _story self ++ [page_of (pre ++ mid)]
                         else _story self |}),
     StoryImageFrame p
     :: (if 2 <? length (page_of (pre ++ mid))
         then [StoryPageFrame (page_of (pre ++ mid));
               DailyTransportMessageFrame CUE_ASSISTANT_TURN]
         else [])
     ++ snd (process_text_content
               {| _text := strip rest;
                  _story := if 2 <? length (page_of (pre ++ mid))
                            then _story self ++ [page_of (pre ++ mid)]
                            else _story self |})).
Proof.
  intros Hs Hpre Hmid Hpre' Hmid' Hgt Hnl Hm.
  assert (Himg : loop_body self =
                   ImageArm (set_text self (pre ++ mid ++ marker ++ rest))
                            [StoryImageFrame p]).
  { apply loop_body_first_tag.
    - split; [split; auto|].
      intros b' p' a' [Hs' _]. rewrite Hs in Hs'.
      exact (head_not_before _ _ _ _ _ _ eq_refl Hs' Hpre).
    - intros b m a Hs' Hm'. rewrite Hs in Hs'.
      destruct (marker_head _ (break_re_ignorecase_wider _ Hm')) as [m0 ->].
      pose proof (head_not_before _ _ _ _ _ _ eq_refl Hs' Hpre') as Hle.
      destruct (Nat.eq_dec (length pre) (length b)) as [Heq|]; [|lia].
      exfalso. apply app_eq_length in Hs'; [|assumption].
      destruct Hs' as [_ Hs']. discriminate. }
  assert (Hno_lt : ~ In c_lt (pre ++ mid))
    by (intros H; apply in_app_or in H; tauto).
  assert (Hno_br : ~ In (chr "[") (pre ++ mid))
    by (intros H; apply in_app_or in H; tauto).
  remember (set_text self (pre ++ mid ++ marker ++ rest)) as Y eqn:HY.
  assert (HtY : _text Y = (pre ++ mid) ++ marker ++ rest)
    by (rewrite HY; cbn; now rewrite <- app_assoc).
  assert (Hbrk : loop_body Y = break_arm Y).
  { apply (loop_body_first_marker Y (pre ++ mid) marker rest).
    - rewrite HtY.
      now apply (first_match_after_plain _ break_re_ignorecase_wider).
    - intros b q a [Hs' _]. rewrite HtY in Hs'.
      exact (head_not_before _ _ _ _ _ _ eq_refl Hs' Hno_lt). }
  assert (Hf : first_match break_re_ignorecase (_text Y) (pre ++ mid) marker rest).
  { rewrite HtY. apply (first_match_after_plain _ (fun m H => H)); [assumption|].
    now apply break_re_ignorecase_wider. }
  rewrite (break_arm_first_match _ _ _ _ Hf) in Hbrk.
  rewrite process_text_content_step, Himg.
  rewrite (process_text_content_step Y), Hbrk.
  assert (Hst : _story Y = _story self) by (rewrite HY; reflexivity).
  rewrite Hst. cbn [fst snd app]. reflexivity.
Qed.

Lemma tag_then_page_witness :
  process_text_content {| _text := py "Once <a fox> upon a time.[Break] Then";
                          _story := [] |} =
    (fst (process_text_content
            {| _text := strip (py " Then");
               _story := if 2 <? length (page_of (py "Once " ++ py " upon a time."))
                         then [] ++ [page_of (py "Once " ++ py " upon a time.")]
                         else [] |}),
     StoryImageFrame (py "a fox")
     :: (if 2 <? length (page_of (py "Once " ++ py " upon a time."))
         then [StoryPageFrame (page_of (py "Once " ++ py " upon a time."));
               DailyTransportMessageFrame CUE_ASSISTANT_TURN]
         else [])
     ++ snd (process_text_content
               {| _text := strip (py " Then");
                  _story := if 2 <? length (page_of (py "Once " ++ py " upon a time."))
                            then [] ++ [page_of (py "Once " ++ py " upon a time.")]
                            else [] |})).
Proof.
  apply (tag_then_page
           {| _text := py "Once <a fox> upon a time.[Break] Then"; _story := [] |}
           (py "Once ") (py "a fox") (py " upon a time.") (py "[Break]")
           (py " Then")).
  - reflexivity.
  - vm_compute. intuition discriminate.
  - vm_compute. intuition discriminate.
  - vm_compute. intuition discriminate.
  - vm_compute. intuition discriminate.
  - vm_compute. intuition discriminate.
  - vm_compute. intuition discriminate.
  - repeat constructor.
Defined.

Example tag_then_page_run :
  process_text_content {| _text := py "Once <a fox> upon a time.[Break] Then";
                          _story := [] |} =
  ({| _text := py "Then"; _story := [py "Once  upon a time."] |},
   [StoryImageFrame (py "a fox"); StoryPageFrame (py "Once  upon a time.");
    DailyTransportMessageFrame CUE_ASSISTANT_TURN]).
Proof. reflexivity. Qed.

(** ** Frames meant for other stages *)

(** [unnamed] says what the three [isinstance] tests of lines 93, 97 and
    105 say together: an instance of a subclass of [TextFrame], declared
    in the file or elsewhere, is not among these frames. *)
Lemma unnamed_spec frame :
  unnamed frame = true <->
  frame <> UserStoppedSpeakingFrame /\
  isinstance_TextFrame frame = None /\
  frame <> LLMFullResponseEndFrame.
Proof.
  split.
  - destruct frame; try discriminate; intros _; repeat split; discriminate.
  - intros [H1 [H2 H3]]. destruct frame; try reflexivity; try discriminate H2;
      congruence.
Qed.

(** X8: a stream of frames that are instances neither of
    [UserStoppedSpeakingFrame], nor of [TextFrame] or of a subclass of it
    wherever it is declared, nor of [LLMFullResponseEndFrame], comes out
    of the story stage as it went in, in order, and leaves buffer and
    story alone; the image stage does the same with a stream that holds no
    image frame, text frames of every other class included, without
    calling the service. *)
Theorem other_frames_pass
  (IMAGE_GEN_PROMPT : str -> str) (self : StoryProcessor)
  (image_stage : StoryImageProcessor) (frames frames' : list Frame) :
  forallb unnamed frames = true ->
  forallb not_image_trigger frames' = true ->
  process_frames self frames = (self, frames) /\
  image_process_frames IMAGE_GEN_PROMPT image_stage frames' = frames'.
Proof.
  intros H1 H2. split.
  - induction frames as [|frame frames IH]; [reflexivity|].
    cbn [forallb] in H1. apply andb_true_iff in H1. destruct H1 as [Hf H1].
    destruct frame; try discriminate Hf;
      cbn [process_frames process_frame isinstance_TextFrame];
      rewrite (IH H1); reflexivity.
  - induction frames' as [|frame frames' IH]; [reflexivity|].
    cbn [forallb] in H2. apply andb_true_iff in H2. destruct H2 as [Hf H2].
    cbn [image_process_frames]. rewrite (IH H2).
    destruct frame; try discriminate Hf; reflexivity.
Qed.

Lemma other_frames_pass_witness :
  process_frames {| _text := py "half a <ta"; _story := [] |}
    [OtherFrame 4; OutputAudioRawFrame ding;
     DailyTransportMessageFrame CUE_USER_TURN] =
    ({| _text := py "half a <ta"; _story := [] |},
     [OtherFrame 4; OutputAudioRawFrame ding;
      DailyTransportMessageFrame CUE_USER_TURN]) /\
  image_process_frames (fun t => py "a picture of " ++ t)
    {| _fal_service := fun _ => {| produced := [(1%N, OtherFrame 1)];
                                   finish := 0%N |} |}
    [StoryPageFrame (py "A page."); TextFrame (py "<x>");
     OtherTextFrame 1 (py "<y>"); LLMFullResponseEndFrame] =
    [StoryPageFrame (py "A page."); TextFrame (py "<x>");
     OtherTextFrame 1 (py "<y>"); LLMFullResponseEndFrame].
Proof.
  apply (other_frames_pass (fun t => py "a picture of " ++ t)
           {| _text := py "half a <ta"; _story := [] |}
           {| _fal_service := fun _ => {| produced := [(1%N, OtherFrame 1)];
                                          finish := 0%N |} |}
           [OtherFrame 4; OutputAudioRawFrame ding;
            DailyTransportMessageFrame CUE_USER_TURN]
           [StoryPageFrame (py "A page."); TextFrame (py "<x>");
            OtherTextFrame 1 (py "<y>"); LLMFullResponseEndFrame]); reflexivity.
Defined.

(** ** The sound effects sample *)

Lemma dict_get_set key key' value d :
  dict_get key (dict_set key' value d) =
    if String.eqb key' key then Some value else dict_get key d.
Proof.
  induction d as [|[k v] d IH]; cbn.
  - reflexivity.
  - destruct (String.eqb_spec k key') as [->|Hk]; cbn.
    + destruct (String.eqb key' key); reflexivity.
    + rewrite IH. destruct (String.eqb_spec k key) as [->|]; [|reflexivity].
      destruct (String.eqb_spec key' key) as [->|]; [congruence | reflexivity].
Qed.

Lemma load_sounds_Some full_path readframes files acc sounds :
  load_sounds full_path readframes files acc = Some sounds ->
  forall key,
    dict_get key sounds =
      if existsb (String.eqb key) files then readframes (full_path key)
      else dict_get key acc.
Proof.
  revert acc. induction files as [|file files IH]; intros acc; cbn.
  - intros H key. now injection H as <-.
  - destruct (readframes (full_path file)) as [data|] eqn:Er; [|discriminate].
    intros H key. rewrite (IH _ H key), dict_get_set.
    destruct (existsb (String.eqb key) files); [now rewrite orb_true_r|].
    rewrite orb_false_r, String.eqb_sym.
    destruct (String.eqb_spec key file) as [->|]; [now rewrite Er | reflexivity].
Qed.

Lemma load_sounds_None full_path readframes files acc :
  load_sounds full_path readframes files acc = None ->
  exists file, In file files /\ readframes (full_path file) = None.
Proof.
  revert acc. induction files as [|file files IH]; intros acc; cbn; [discriminate|].
  destruct (readframes (full_path file)) as [data|] eqn:Er.
  - intros H. destruct (IH _ H) as [f [Hin Hf]]. exists f. auto.
  - intros _. exists file. auto.
Qed.

(** X9: the table of sounds the module builds.  When every listed file can
    be read, the table has exactly the listed file names as keys, extension
    included, each with the data read from that file's path; any other key
    is missing.  When the loop does not complete, it is because one of the
    listed files could not be read. *)
Theorem sounds_table
  (full_path : string -> string) (readframes : string -> option bytes)
  (files : list string) :
  match load_sounds full_path readframes files [] with
  | Some sounds =>
      forall key,
        dict_get key sounds =
          if existsb (String.eqb key) files then readframes (full_path key)
          else None
  | None => exists file, In file files /\ readframes (full_path file) = None
  end /\
  (forallb (fun file => match readframes (full_path file) with
                        | Some _ => true
                        | None => false
                        end) files = true ->
   load_sounds full_path readframes files [] <> None).
Proof.
  split.
  - destruct (load_sounds full_path readframes files []) as [sounds|] eqn:E.
    + exact (load_sounds_Some _ _ _ _ _ E).
    + exact (load_sounds_None _ _ _ _ E).
  - intros Hall E. destruct (load_sounds_None _ _ _ _ E) as [f [Hin Hf]].
    rewrite forallb_forall in Hall. specialize (Hall f Hin). now rewrite Hf in Hall.
Qed.

Example sounds_table_keys :
  let sounds :=
    load_sounds (fun file => ("assets/" ++ file)%string)
      (fun path => Some (map N_of_ascii (list_ascii_of_string path)))
      sound_files [] in
  option_map (dict_get "ding1.wav") sounds = Some (Some (py "assets/ding1.wav")) /\
  option_map (dict_get "ding1") sounds = Some None.
Proof. split; reflexivity. Qed.

Lemma feed_flat_map process_frame g frames :
  (forall frame, process_frame frame = Some (g frame)) ->
  feed process_frame frames = Some (flat_map g frames).
Proof.
  intros H. induction frames as [|frame frames IH]; cbn; [reflexivity|].
  now rewrite H, IH.
Qed.

Lemma filter_not_audio_insert (trigger : QueueFrame -> bool) data frames :
  filter (fun f => negb (is_audio f))
    (flat_map (fun f => if trigger f then [AudioQueueFrame data; f] else [f])
       frames) =
  filter (fun f => negb (is_audio f)) frames.
Proof.
  induction frames as [|frame frames IH]; cbn; [reflexivity|].
  destruct (trigger frame); cbn; destruct (is_audio frame); cbn;
    now rewrite IH.
Qed.

Lemma length_insert (trigger : QueueFrame -> bool) data frames :
  length (flat_map (fun f => if trigger f then [AudioQueueFrame data; f] else [f])
            frames) =
  length frames + length (filter trigger frames).
Proof.
  induction frames as [|frame frames IH]; cbn; [reflexivity|].
  destruct (trigger frame); cbn; rewrite IH; lia.
Qed.

(** X10: with the table of sounds the module has built, the two wrappers
    never fail on a lookup.  Fed a stream, the outbound one yields every
    frame as it came and in order, with one audio frame of [ding1.wav]
    put right before each end-of-response frame, the inbound one the same
    with [ding2.wav] before each messages frame; the frames that are not
    audio come out as they went in, and the stream grows by one frame for
    each frame that triggers a sound. *)
Theorem sound_wrappers_insert
  (full_path : string -> string) (readframes : string -> option bytes)
  (sounds : dict) (frames : list QueueFrame) :
  load_sounds full_path readframes sound_files [] = Some sounds ->
  exists ding1 ding2 out_frames in_frames,
    readframes (full_path "ding1.wav"%string) = Some ding1 /\
    readframes (full_path "ding2.wav"%string) = Some ding2 /\
    feed (Outbound_process_frame sounds) frames = Some out_frames /\
    feed (Inbound_process_frame sounds) frames = Some in_frames /\
    out_frames =
      flat_map (fun f => if is_response_end f
                         then [AudioQueueFrame ding1; f] else [f]) frames /\
    in_frames =
      flat_map (fun f => if is_messages f
                         then [AudioQueueFrame ding2; f] else [f]) frames /\
    filter (fun f => negb (is_audio f)) out_frames =
      filter (fun f => negb (is_audio f)) frames /\
    filter (fun f => negb (is_audio f)) in_frames =
      filter (fun f => negb (is_audio f)) frames /\
    length out_frames = length frames + length (filter is_response_end frames) /\
    length in_frames = length frames + length (filter is_messages frames).
Proof.
  intros H. cbn in H.
  destruct (readframes (full_path "ding1.wav"%string)) as [d1|] eqn:E1; [|discriminate].
  destruct (readframes (full_path "ding2.wav"%string)) as [d2|] eqn:E2; [|discriminate].
  injection H as <-. exists d1, d2. do 2 eexists.
  split; [reflexivity|]. split; [reflexivity|].
  split; [|split; [|split; [reflexivity|split; [reflexivity|]]]].
  - apply feed_flat_map. intros frame. destruct frame; reflexivity.
  - apply feed_flat_map. intros frame. destruct frame; reflexivity.
  - split; [apply filter_not_audio_insert|].
    split; [apply filter_not_audio_insert|].
    split; apply length_insert.
Qed.

Lemma sound_wrappers_insert_witness :
  exists ding1 ding2 out_frames in_frames,
    Some (py "assets/ding1.wav") = Some ding1 /\
    Some (py "assets/ding2.wav") = Some ding2 /\
    feed (Outbound_process_frame
            [("ding1.wav", py "assets/ding1.wav");
             ("ding2.wav", py "assets/ding2.wav")]%string)
      [LLMMessagesQueueFrame 1; OtherQueueFrame 2; LLMResponseEndQueueFrame] =
      Some out_frames /\
    feed (Inbound_process_frame
            [("ding1.wav", py "assets/ding1.wav");
             ("ding2.wav", py "assets/ding2.wav")]%string)
      [LLMMessagesQueueFrame 1; OtherQueueFrame 2; LLMResponseEndQueueFrame] =
      Some in_frames /\
    out_frames =
      flat_map (fun f => if is_response_end f
                         then [AudioQueueFrame ding1; f] else [f])
        [LLMMessagesQueueFrame 1; OtherQueueFrame 2; LLMResponseEndQueueFrame] /\
    in_frames =
      flat_map (fun f => if is_messages f
                         then [AudioQueueFrame ding2; f] else [f])
        [LLMMessagesQueueFrame 1; OtherQueueFrame 2; LLMResponseEndQueueFrame] /\
    filter (fun f => negb (is_audio f)) out_frames =
      filter (fun f => negb (is_audio f))
        [LLMMessagesQueueFrame 1; OtherQueueFrame 2; LLMResponseEndQueueFrame] /\
    filter (fun f => negb (is_audio f)) in_frames =
      filter (fun f => negb (is_audio f))
        [LLMMessagesQueueFrame 1; OtherQueueFrame 2; LLMResponseEndQueueFrame] /\
    length out_frames =
      length [LLMMessagesQueueFrame 1; OtherQueueFrame 2; LLMResponseEndQueueFrame]
      + length (filter is_response_end
                  [LLMMessagesQueueFrame 1; OtherQueueFrame 2;
                   LLMResponseEndQueueFrame]) /\
    length in_frames =
      length [LLMMessagesQueueFrame 1; OtherQueueFrame 2; LLMResponseEndQueueFrame]
      + length (filter is_messages
                  [LLMMessagesQueueFrame 1; OtherQueueFrame 2;
                   LLMResponseEndQueueFrame]).
Proof.
  exact (sound_wrappers_insert
           (fun file => ("assets/" ++ file)%string)
           (fun path => Some (map N_of_ascii (list_ascii_of_string path)))
           [("ding1.wav", py "assets/ding1.wav");
            ("ding2.wav", py "assets/ding2.wav")]%string
           [LLMMessagesQueueFrame 1; OtherQueueFrame 2; LLMResponseEndQueueFrame]
           eq_refl).
Defined.

Example sound_wrappers_run :
  feed (Outbound_process_frame [("ding1.wav", [1; 2]%N)]%string)
    [OtherQueueFrame 7; LLMResponseEndQueueFrame; AudioQueueFrame [9%N]] =
  Some [OtherQueueFrame 7; AudioQueueFrame [1; 2]%N; LLMResponseEndQueueFrame;
        AudioQueueFrame [9%N]].
Proof. reflexivity. Qed.

Lemma feed_pass process_frame frames :
  (forall frame, In frame frames -> process_frame frame = Some [frame]) ->
  feed process_frame frames = Some frames.
Proof.
  induction frames as [|frame frames IH]; intros H; cbn; [reflexivity|].
  rewrite (H frame (or_introl eq_refl)), IH; [reflexivity|].
  intros f Hf. apply H. now right.
Qed.

Lemma feed_raises process_frame frames frame :
  In frame frames -> process_frame frame = None ->
  feed process_frame frames = None.
Proof.
  induction frames as [|f frames IH]; intros Hin Hp; [destruct Hin|]. cbn.
  destruct Hin as [->|Hin]; [now rewrite Hp|].
  destruct (process_frame f); [|reflexivity]. now rewrite (IH Hin Hp).
Qed.


(** ** Stripping and replacing, said without the functions *)

Lemma strip_is_bare s : bare (strip s).
Proof. split; [intros c t'; apply strip_head | intros t' c; apply strip_last]. Qed.

Lemma strip_trimmed s : trimmed_of s (strip s).
Proof. split; [apply padded_strip | apply strip_is_bare]. Qed.

Lemma strip_of_bare t : bare t -> strip t = t.
Proof.
  intros [Hhd Hlast]. unfold strip, rstrip.
  assert (Hl : lstrip t = t).
  { destruct t as [|c t]; [reflexivity|]. simpl.
    now rewrite (Hhd c t eq_refl). }
  rewrite Hl. destruct (rev t) as [|c r] eqn:Er.
  - simpl. apply (f_equal (@rev char)) in Er. now rewrite rev_involutive in Er.
  - assert (Ht : t = rev r ++ [c]).
    { apply (f_equal (@rev char)) in Er. now rewrite rev_involutive in Er. }
    simpl. rewrite (Hlast _ _ Ht). simpl. now rewrite Ht.
Qed.

(** Stripping gives the one text that is the trimmed one. *)
Lemma trimmed_of_strip s t : trimmed_of s t -> t = strip s.
Proof.
  intros [Hp Hb]. rewrite (strip_padded _ _ Hp). symmetry. now apply strip_of_bare.
Qed.

Lemma replace_nl_space_spaced s : newlines_spaced s (replace_nl_space s).
Proof.
  unfold newlines_spaced, replace_nl_space.
  induction s as [|c s IH]; simpl; constructor; auto.
Qed.

Lemma replace_nl_space_bare t : bare t -> bare (replace_nl_space t).
Proof.
  intros [Hhd Hlast]. unfold replace_nl_space. split.
  - intros c t' H. destruct t as [|d t]; [discriminate|]. simpl in H.
    injection H as <- _. specialize (Hhd d t eq_refl).
    destruct (N.eqb_spec d c_nl) as [->|]; [discriminate Hhd | assumption].
  - intros t' c H. apply map_eq_app in H. destruct H as [t0 [l1 [-> [_ H1]]]].
    destruct l1 as [|d [|e l1]]; try discriminate. simpl in H1.
    injection H1 as <-. specialize (Hlast t0 d eq_refl).
    destruct (N.eqb_spec d c_nl) as [->|]; [discriminate Hlast | assumption].
Qed.

Lemma strip_replace_nl_space s :
  strip (replace_nl_space s) = replace_nl_space (strip s).
Proof.
  destruct (strip_split s) as [l [r [Hs [Hl Hr]]]].
  rewrite Hs at 1. unfold replace_nl_space at 1. rewrite !map_app.
  fold (replace_nl_space l). fold (replace_nl_space (strip s)).
  fold (replace_nl_space r).
  rewrite strip_pad_left, strip_pad_right
    by now apply replace_nl_space_isspace.
  apply strip_of_bare, replace_nl_space_bare, strip_is_bare.
Qed.

Lemma page_of_normalized before : normalized_of before (page_of before).
Proof.
  exists (strip before). split; [apply strip_trimmed|].
  unfold page_of. rewrite strip_replace_nl_space. apply replace_nl_space_spaced.
Qed.

(** What a break step does, said of the texts alone. *)
Lemma break_arm_texts self before m after :
  first_match break_re_ignorecase (_text self) before m after ->
  exists page rest,
    normalized_of before page /\ trimmed_of after rest /\
    break_arm self =
      BreakArm
        {| _text := rest;
           _story := if 2 <? length page
                     then _story self ++ [page] else _story self |}
        (if 2 <? length page
         then [StoryPageFrame page;
               DailyTransportMessageFrame CUE_ASSISTANT_TURN]
         else []).
Proof.
  intros Hf. exists (page_of before), (strip after).
  split; [apply page_of_normalized|]. split; [apply strip_trimmed|].
  exact (break_arm_first_match _ _ _ _ Hf).
Qed.

Lemma newlines_spaced_replace s t :
  newlines_spaced s t -> t = replace_nl_space s.
Proof.
  unfold newlines_spaced, replace_nl_space.
  induction 1 as [|c d s t Hd _ IH]; simpl; [reflexivity|]. now rewrite Hd, IH.
Qed.

(** The two descriptions leave no choice. *)
Lemma normalized_of_page_of before page :
  normalized_of before page -> page = page_of before.
Proof.
  intros [core [Ht Hn]]. unfold page_of.
  rewrite strip_replace_nl_space, <- (trimmed_of_strip _ _ Ht).
  now apply newlines_spaced_replace.
Qed.

(** ** A break marker first in the buffer *)

(** C1, on the code: a break marker written [[BREAK]] stands first in the
    buffer [abc[BREAK] more], with no image tag anywhere, and the loop
    takes no step: nothing is split off, no page frame and no cue is
    pushed, the story gets no entry and the buffer keeps the marker.  This
    is the search of line 123 again, which knows [[break]] and [[Break]]
    only (see C4). *)
Theorem uppercase_marker_first_no_step :
  first_match break_re_ignorecase (py "abc[BREAK] more")
    (py "abc") (py "[BREAK]") (py " more") /\
  search_image (py "abc[BREAK] more") = None /\
  loop_body {| _text := py "abc[BREAK] more"; _story := [] |} = Stop /\
  process_frame (init []) (TextFrame (py "abc[BREAK] more")) DOWNSTREAM =
    ({| _text := py "abc[BREAK] more"; _story := [] |}, []).
Proof.
  split; [|repeat split; reflexivity].
  exact (re_search_split break_re_ignorecase (py "abc[BREAK] more")
           {| m_start := 3; m_end := 10 |} eq_refl).
Qed.

(** X12: when the leftmost marker the search knows, [[break]] or
    [[Break]], stands in the buffer with no image tag starting before it,
    the iteration cuts the buffer at its first marker of any casing.  The
    page is the text before that marker without the whitespace at its two
    ends and with a space for each newline left in it; if it has more than
    two characters it is appended to the story and pushed in a page frame
    followed by the "assistant's turn" cue, otherwise nothing is appended
    and nothing pushed.  Either way the new buffer is the text after the
    marker without the whitespace at its two ends. *)
Theorem detected_marker_step (self : StoryProcessor) (b0 m0 a0 : str) :
  first_match break_re (_text self) b0 m0 a0 ->
  (forall b p a, tag_at (_text self) b p a -> length b0 <= length b) ->
  exists before marker after page rest,
    first_match break_re_ignorecase (_text self) before marker after /\
    normalized_of before page /\
    trimmed_of after rest /\
    loop_body self =
      BreakArm
        {| _text := rest;
           _story := if 2 <? length page
                     then _story self ++ [page] else _story self |}
        (if 2 <? length page
         then [StoryPageFrame page;
               DailyTransportMessageFrame CUE_ASSISTANT_TURN]
         else []).
Proof.
  intros Hb Htag.
  destruct (split_marker_exists _ _ (re_search_first _ _ _ _ _ Hb))
    as [b [m [a [Hf _]]]].
  destruct (break_arm_texts self _ _ _ Hf) as [page [rest [Hp [Hr E]]]].
  exists b, m, a, page, rest. repeat split; try apply Hf; try apply Hp;
    try apply Hr.
  rewrite (loop_body_first_marker _ _ _ _ Hb Htag). exact E.
Qed.

Lemma detected_marker_step_witness :
  exists before marker after page rest,
    first_match break_re_ignorecase
      (py "  Once upon" ++ c_nl :: py "a time. [Break]  <a castle ")
      before marker after /\
    normalized_of before page /\
    trimmed_of after rest /\
    loop_body {| _text := py "  Once upon" ++ c_nl :: py "a time. [Break]  <a castle ";
                 _story := [] |} =
      BreakArm
        {| _text := rest;
           _story := if 2 <? length page then [] ++ [page] else [] |}
        (if 2 <? length page
         then [StoryPageFrame page;
               DailyTransportMessageFrame CUE_ASSISTANT_TURN]
         else []).
Proof.
  apply (detected_marker_step
           {| _text := py "  Once upon" ++ c_nl :: py "a time. [Break]  <a castle ";
              _story := [] |}
           (py "  Once upon" ++ c_nl :: py "a time. ") (py "[Break]")
           (py "  <a castle ")).
  - exact (re_search_split break_re
             (py "  Once upon" ++ c_nl :: py "a time. [Break]  <a castle ")
             {| m_start := 20; m_end := 27 |} eq_refl).
  - intros b p a Ht. exfalso.
    exact (search_image_None
             (py "  Once upon" ++ c_nl :: py "a time. [Break]  <a castle ")
             eq_refl b p a Ht).
Defined.

Example detected_marker_step_run :
  loop_body {| _text := py "  Once upon" ++ c_nl :: py "a time. [Break]  <a castle ";
               _story := [] |} =
  BreakArm {| _text := py "<a castle"; _story := [py "Once upon a time."] |}
           [StoryPageFrame (py "Once upon a time.");
            DailyTransportMessageFrame CUE_ASSISTANT_TURN].
Proof. reflexivity. Qed.

(** ** The buffer, step by step *)

(** C8, as the code has it.  A frame that is an instance of [TextFrame]
    has the loop run on the buffer with its text appended; the
    end-of-response marker empties the buffer; every other frame leaves it
    alone.  In the loop, an image step takes the span of the leftmost tag
    out of the buffer and leaves what stood before and after it, joined; a
    break step takes out the text before the first marker and the marker,
    and of what follows the whitespace at its two ends, and nothing
    else. *)
Theorem buffer_changes (self : StoryProcessor) :
  (forall frame d,
     match isinstance_TextFrame frame with
     | Some text =>
         runs {| _text := _text self ++ text; _story := _story self |}
              (fst (process_frame self frame d))
              (snd (process_frame self frame d))
     | None =>
         match frame with
         | LLMFullResponseEndFrame =>
             _text (fst (process_frame self frame d)) = []
         | _ => _text (fst (process_frame self frame d)) = _text self
         end
     end) /\
  match loop_body self with
  | Stop => True
  | ImageArm self' _ =>
      exists before p after,
        first_tag (_text self) before p after /\
        _text self' = before ++ after
  | BreakArm self' _ =>
      exists before marker after,
        first_match break_re_ignorecase (_text self) before marker after /\
        trimmed_of after (_text self')
  end.
Proof.
  split.
  - intros frame d.
    destruct frame; cbn [isinstance_TextFrame process_frame];
      try reflexivity; apply (process_text_content_runs (set_text self _)).
  - destruct (loop_body_cases self) as
      [[_ [_ E]] | [[b [p [a [Hf [_ E]]]]] | [bm [b [m [a [_ [_ [Hf [_ E]]]]]]]]]];
      rewrite E.
    + exact I.
    + exists b, p, a. auto.
    + rewrite (break_arm_first_match _ _ _ _ Hf). cbn [_text].
      exists b, m, a. split; [assumption | apply strip_trimmed].
Qed.

(** The two post-states a looser statement would let through for the
    buffer [a<b>c<d>e] are not what the step leaves. *)
Example buffer_changes_run :
  loop_body {| _text := py "a<b>c<d>e"; _story := [] |} =
  ImageArm {| _text := py "ac<d>e"; _story := [] |} [StoryImageFrame (py "b")].
Proof. reflexivity. Qed.

(** ** Instances of subclasses of [TextFrame] *)

Lemma process_text_content_consumed self text :
  consumed_as_text self text
    (process_text_content (set_text self (_text self ++ text))).
Proof.
  pose proof (process_text_content_runs (set_text self (_text self ++ text)))
    as Hr.
  split; [exact Hr|]. split; [exact (runs_loop_output _ _ _ Hr)|].
  intros Ei Eb. apply runs_process_text_content. constructor.
  unfold loop_body. cbn [set_text _text]. now rewrite Ei, Eb.
Qed.

(** C9: a page frame, an image frame or a prompt frame that reaches the
    stage, and an instance of any subclass of [TextFrame] declared
    elsewhere, is taken as a text delta and not passed on: the loop is
    entered with the frame's text behind what the buffer held and the
    result is the loop's; what is pushed is what the loop pushes, image
    frames and page frames with their cue, made by the loop; and when the
    buffer so extended holds no pattern, it is the new buffer and nothing
    is pushed.  The result is that of a plain text frame with the same
    text, and a prompt frame or a frame of a class declared elsewhere is
    never among the frames pushed for it. *)
Theorem text_subclasses_are_consumed
  (self : StoryProcessor) (text : str) (cls : N) (d : FrameDirection) :
  consumed_as_text self text (process_frame self (StoryPageFrame text) d) /\
  consumed_as_text self text (process_frame self (StoryImageFrame text) d) /\
  consumed_as_text self text (process_frame self (StoryPromptFrame text) d) /\
  consumed_as_text self text (process_frame self (OtherTextFrame cls text) d) /\
  process_frame self (StoryPageFrame text) d =
    process_frame self (TextFrame text) d /\
  process_frame self (StoryImageFrame text) d =
    process_frame self (TextFrame text) d /\
  process_frame self (StoryPromptFrame text) d =
    process_frame self (TextFrame text) d /\
  process_frame self (OtherTextFrame cls text) d =
    process_frame self (TextFrame text) d /\
  ~ In (StoryPromptFrame text) (snd (process_frame self (StoryPromptFrame text) d)) /\
  ~ In (OtherTextFrame cls text)
       (snd (process_frame self (OtherTextFrame cls text) d)).
Proof.
  assert (Hno : forall f pushed,
            loop_output pushed = true -> In f pushed ->
            match f with
            | StoryImageFrame _ | StoryPageFrame _
            | DailyTransportMessageFrame CUE_ASSISTANT_TURN => True
            | _ => False
            end).
  { intros f pushed. remember (length pushed) as n eqn:Hn.
    assert (Hle : length pushed <= n) by lia. clear Hn. revert pushed Hle.
    induction n as [|n IH]; intros pushed Hle Hout Hin.
    - destruct pushed; [destruct Hin | simpl in Hle; lia].
    - destruct pushed as [|g pushed]; [destruct Hin|].
      destruct g; try discriminate Hout.
      + destruct pushed as [|h pushed]; [discriminate|].
        destruct h as [| | | | | | |[|]| |]; try discriminate Hout.
        destruct Hin as [<-|[<-|Hin]]; [exact I | exact I |].
        apply (IH pushed); [simpl in Hle; lia | exact Hout | exact Hin].
      + destruct Hin as [<-|Hin]; [exact I|].
        apply (IH pushed); [simpl in Hle; lia | exact Hout | exact Hin]. }
  pose proof (process_text_content_consumed self text) as Hc.
  repeat split; try apply Hc; try reflexivity.
  - intros Hin. exact (Hno _ _ (proj1 (proj2 Hc)) Hin).
  - intros Hin. exact (Hno _ _ (proj1 (proj2 Hc)) Hin).
Qed.

(** A transcription frame, an instance of a subclass of [TextFrame] that
    the file does not declare, with a marker in its text: a page is pushed
    and the frame is not. *)
Example other_text_frame_consumed :
  process_frame (init []) (OtherTextFrame 1 (py "Hello there.[break]")) DOWNSTREAM =
  ({| _text := []; _story := [py "Hello there."] |},
   [StoryPageFrame (py "Hello there.");
    DailyTransportMessageFrame CUE_ASSISTANT_TURN]).
Proof. reflexivity. Qed.

(** ** A sound that is missing *)

(** X11: when the key of its own sound is missing from the table, whatever
    else the table holds, a wrapper fails with the lookup exactly when the
    stream has a frame that triggers the sound; a stream without such a
    frame passes as it came. *)
Theorem sound_wrapper_missing_key (sounds : dict) (frames : list QueueFrame) :
  (dict_get "ding1.wav" sounds = None ->
   feed (Outbound_process_frame sounds) frames =
     (if existsb is_response_end frames then None else Some frames)) /\
  (dict_get "ding2.wav" sounds = None ->
   feed (Inbound_process_frame sounds) frames =
     (if existsb is_messages frames then None else Some frames)).
Proof.
  split; intros H.
  - destruct (existsb is_response_end frames) eqn:E.
    + apply existsb_exists in E. destruct E as [f [Hin Hf]].
      apply (feed_raises _ _ f Hin). destruct f; try discriminate Hf.
      cbn. now rewrite H.
    + apply feed_pass. intros f Hin.
      assert (Hf : is_response_end f = false).
      { destruct (is_response_end f) eqn:Ef; [|reflexivity].
        rewrite <- E. symmetry. apply existsb_exists. eauto. }
      destruct f; try discriminate Hf; reflexivity.
  - destruct (existsb is_messages frames) eqn:E.
    + apply existsb_exists in E. destruct E as [f [Hin Hf]].
      apply (feed_raises _ _ f Hin). destruct f; try discriminate Hf.
      cbn. now rewrite H.
    + apply feed_pass. intros f Hin.
      assert (Hf : is_messages f = false).
      { destruct (is_messages f) eqn:Ef; [|reflexivity].
        rewrite <- E. symmetry. apply existsb_exists. eauto. }
      destruct f; try discriminate Hf; reflexivity.
Qed.

(** A table with [ding2.wav] and without [ding1.wav] for the outbound
    wrapper, and the other way round for the inbound one; and streams
    without the trigger, which pass. *)
Lemma sound_wrapper_missing_key_witness :
  feed (Outbound_process_frame [("ding2.wav"%string, [2%N])])
    [LLMMessagesQueueFrame 3; OtherQueueFrame 7; LLMResponseEndQueueFrame] =
    None /\
  feed (Inbound_process_frame [("ding1.wav"%string, [1%N])])
    [LLMMessagesQueueFrame 3; OtherQueueFrame 7; LLMResponseEndQueueFrame] =
    None /\
  feed (Outbound_process_frame [("ding2.wav"%string, [2%N])])
    [LLMMessagesQueueFrame 3; OtherQueueFrame 7] =
    Some [LLMMessagesQueueFrame 3; OtherQueueFrame 7].
Proof.
  split; [|split].
  - exact (proj1 (sound_wrapper_missing_key [("ding2.wav"%string, [2%N])]
                    [LLMMessagesQueueFrame 3; OtherQueueFrame 7;
                     LLMResponseEndQueueFrame]) eq_refl).
  - exact (proj2 (sound_wrapper_missing_key [("ding1.wav"%string, [1%N])]
                    [LLMMessagesQueueFrame 3; OtherQueueFrame 7;
                     LLMResponseEndQueueFrame]) eq_refl).
  - exact (proj1 (sound_wrapper_missing_key [("ding2.wav"%string, [2%N])]
                    [LLMMessagesQueueFrame 3; OtherQueueFrame 7]) eq_refl).
Defined.
